(** * A shallow embedding of the constant-database (CDB) reader and writer
    of [src/storage/cdb/cdb_rs/src/cdb/mod.rs], and proofs about it.

    Conventions of the embedding:
    - a byte is a [Z] in [0, 256), a byte string a [list Z];
    - a [u32] is a [Z] in [0, 2^32) with its wrap-around written out;
    - Rust's [Result] together with a possible panic is [outcome];
    - the file a [Writer] writes into is an in-memory seekable file
      (a byte vector and a cursor), on which no I/O error occurs. *)

From Stdlib Require Import String Ascii.
From Stdlib Require Import ZArith List Lia Bool.
Import ListNotations.
Open Scope list_scope.
Open Scope Z_scope.

(** ** Outcomes: [Ok], [Err] (the [failure::Error] of the crate) or a panic. *)

Inductive cdb_error : Type :=
| Io_error.

Inductive outcome (A : Type) : Type :=
| Ok (a : A)
| Err (e : cdb_error)
| Panic.
Arguments Ok {A} a.
Arguments Err {A} e.
Arguments Panic {A}.

Definition bind {A B : Type} (m : outcome A) (k : A -> outcome B) : outcome B :=
  match m with
  | Ok a => k a
  | Err e => Err e
  | Panic => Panic
  end.

Notation "x <- m ;; k" := (bind m (fun x => k))
  (at level 61, m at next level, right associativity).

(** [assert!(c)]. *)
Definition assert_ (c : bool) : outcome unit := if c then Ok tt else Panic.

(** ** Constants *)

Definition STARTING_HASH : Z := 5381.
Definition MAIN_TABLE_SIZE : Z := 256.
Definition MAIN_TABLE_SIZE_BYTES : Z := 2048.
Definition END_TABLE_ENTRY_SIZE : Z := 8.
Definition INDEX_ENTRY_SIZE : Z := 8.

Definition u32_modulus : Z := 2 ^ 32.

(** [x as u32] for a non-negative [usize] / [u64] [x]. *)
Definition as_u32 (x : Z) : Z := x mod u32_modulus.

(** [a + b] on [u32]: overflow is a panic (debug build, as under [cargo test]). *)
Definition add_u32 (a b : Z) : outcome Z :=
  if a + b <? u32_modulus then Ok (a + b) else Panic.

(** [a % b] on unsigned integers: a zero divisor panics. *)
Definition rem (a b : Z) : outcome Z :=
  if b =? 0 then Panic else Ok (a mod b).

(** ** [CDBHash] *)

(** [u32::wrapping_shl]: the shift amount is masked to 5 bits, the result
    truncated to 32 bits. *)
Definition wrapping_shl (h n : Z) : Z := as_u32 (Z.shiftl h (Z.land n 31)).

Definition wrapping_add (a b : Z) : Z := as_u32 (a + b).

(** One iteration of the loop of [CDBHash::new]. *)
Definition hash_step (h b : Z) : Z := Z.lxor (wrapping_add (wrapping_shl h 5) h) b.

(** [CDBHash::new]. *)
Definition cdb_hash (bytes : list Z) : Z := fold_left hash_step bytes STARTING_HASH.

(** [CDBHash::table]. *)
Definition table (h : Z) : Z := h mod MAIN_TABLE_SIZE.

(** [CDBHash::slot]. *)
Definition slot (h num_ents : Z) : outcome Z := rem (Z.shiftr h 8) num_ents.

(** ** Little-endian [u32] encoding ([BufMut::put_u32_le], [Buf::get_u32_le]) *)

Definition put_u32_le (x : Z) : list Z :=
  [Z.land x 255; Z.land (Z.shiftr x 8) 255;
   Z.land (Z.shiftr x 16) 255; Z.land (Z.shiftr x 24) 255].

(** Reads the first four bytes of a buffer known to hold at least four. *)
Definition get_u32_le (b : list Z) : Z :=
  match b with
  | b0 :: b1 :: b2 :: b3 :: _ =>
      b0 + Z.shiftl b1 8 + Z.shiftl b2 16 + Z.shiftl b3 24
  | _ => 0
  end.

(** ** Records of the crate *)

Record Bucket : Type := mkBucket { b_ptr : Z; b_num_ents : Z }.

Record IndexEntry : Type := mkIndexEntry { ie_hash : Z; ie_ptr : Z }.

(** [IndexEntry::default()]. *)
Definition ie_default : IndexEntry := mkIndexEntry 0 0.

Record KVRef : Type := mkKVRef { kv_k : list Z; kv_v : list Z }.

Fixpoint list_Z_eqb (a b : list Z) : bool :=
  match a, b with
  | [], [] => true
  | x :: a', y :: b' => (x =? y) && list_Z_eqb a' b'
  | _, _ => false
  end.

(** ** [Reader] *)

Section Reader.

(** The bytes the reader borrows ([Reader::data]). *)
Variable data : list Z.

(** [data[a..b]]: panics unless [a <= b <= data.len()]. *)
Definition slice (a b : Z) : outcome (list Z) :=
  if (0 <=? a) && (a <=? b) && (b <=? Z.of_nat (length data))
  then Ok (firstn (Z.to_nat (b - a)) (skipn (Z.to_nat a) data))
  else Panic.

(** [Reader::bucket_at]. *)
Definition bucket_at (idx : Z) : outcome Bucket :=
  _ <- assert_ (idx <? MAIN_TABLE_SIZE) ;;
  let off := 8 * idx in
  s <- slice off (off + 8) ;;
  Ok (mkBucket (get_u32_le s) (get_u32_le (skipn 4 s))).

(** [Bucket::entry_n_pos]. *)
Definition entry_n_pos (b : Bucket) (n : Z) : outcome Z :=
  _ <- assert_ (n <? b_num_ents b) ;;
  Ok (b_ptr b + n * END_TABLE_ENTRY_SIZE).

(** [Reader::index_entry_at]: a position inside the main table panics. *)
Definition index_entry_at (pos : Z) : outcome IndexEntry :=
  if pos <? MAIN_TABLE_SIZE_BYTES then Panic
  else
    s <- slice pos (pos + 8) ;;
    Ok (mkIndexEntry (get_u32_le s) (get_u32_le (skipn 4 s))).

(** [Reader::get_kv_ref]. *)
Definition get_kv_ref (ie : IndexEntry) : outcome KVRef :=
  b <- slice (ie_ptr ie) (ie_ptr ie + INDEX_ENTRY_SIZE) ;;
  let ksize := get_u32_le (firstn 4 b) in
  let vsize := get_u32_le (skipn 4 b) in
  let kstart := ie_ptr ie + INDEX_ENTRY_SIZE in
  let vstart := kstart + ksize in
  k <- slice kstart (kstart + ksize) ;;
  v <- slice vstart (vstart + vsize) ;;
  Ok (mkKVRef k v).

End Reader.

(** [copy_slice dst src]: the new destination and the count copied. *)
Definition copy_slice (dst src : list Z) : list Z * Z :=
  let n := Z.min (Z.of_nat (length dst)) (Z.of_nat (length src)) in
  (firstn (Z.to_nat n) src ++ skipn (Z.to_nat n) dst, n).

(** The result of [Reader::get]: [Some n] is [Found(n)], [None] is
    [NotFound]; the second component is the destination buffer after the call. *)
Definition get_result : Type := option Z * list Z.

Section Get.

Variables (data key buf : list Z) (hash : Z) (bucket : Bucket) (slot0 : Z).

(** The [for x in 0..bucket.num_ents] loop of [Reader::get], from [x] on,
    with [fuel] iterations left. *)
Fixpoint get_loop (fuel : nat) (x : Z) : outcome get_result :=
  match fuel with
  | O => Ok (None, buf)
  | S fuel' =>
      s <- add_u32 x slot0 ;;
      index_entry_pos <- entry_n_pos bucket (s mod b_num_ents bucket) ;;
      idx_ent <- index_entry_at data index_entry_pos ;;
      if ie_ptr idx_ent =? 0 then Ok (None, buf)
      else if ie_hash idx_ent =? hash then
        kv <- get_kv_ref data idx_ent ;;
        if list_Z_eqb (kv_k kv) key then
          let '(buf', n) := copy_slice buf (kv_v kv) in Ok (Some n, buf')
        else get_loop fuel' (x + 1)
      else get_loop fuel' (x + 1)
  end.

End Get.

(** [Reader::get]. *)
Definition get (data key buf : list Z) : outcome get_result :=
  let hash := cdb_hash key in
  bucket <- bucket_at data (table hash) ;;
  if b_num_ents bucket =? 0 then Ok (None, buf)
  else
    sl <- slot hash (b_num_ents bucket) ;;
    get_loop data key buf hash bucket sl (Z.to_nat (b_num_ents bucket)) 0.

(** ** The file a [Writer] writes into

    An in-memory seekable file, with the semantics of
    [std::io::Cursor<Vec<u8>>]: writing past the end zero-fills the gap and
    extends the vector; seeking reports the new position. *)

Record file : Type := mkFile { contents : list Z; cursor : Z }.

Definition empty_file : file := mkFile [] 0.

(** [Write::write_all] (and [Write::write], which writes everything here). *)
Definition file_write (f : file) (bs : list Z) : file :=
  let c := contents f in
  let p := Z.to_nat (cursor f) in
  mkFile (firstn p c ++ repeat 0 (p - length c) ++ bs ++ skipn (p + length bs) c)
         (cursor f + Z.of_nat (length bs)).

(** [SeekFrom::Start(n)], [SeekFrom::End(0)], [SeekFrom::Current(0)]. *)
Definition seek_start (f : file) (n : Z) : file * Z := (mkFile (contents f) n, n).
Definition seek_end (f : file) : file * Z :=
  let n := Z.of_nat (length (contents f)) in (mkFile (contents f) n, n).
Definition seek_current (f : file) : file * Z := (f, cursor f).

(** [v[i] = x] / [v[i].push(..)] on a [Vec]: out of range panics. *)
Definition vec_set {A : Type} (l : list A) (i : Z) (x : A) : outcome (list A) :=
  if (0 <=? i) && (i <? Z.of_nat (length l))
  then Ok (firstn (Z.to_nat i) l ++ x :: skipn (S (Z.to_nat i)) l)
  else Panic.

Definition vec_get {A : Type} (l : list A) (i : Z) : outcome A :=
  if 0 <=? i then
    match nth_error l (Z.to_nat i) with Some x => Ok x | None => Panic end
  else Panic.

(** ** [Writer] *)

Record Writer : Type := mkWriter { w_file : file; w_index : list (list IndexEntry) }.

(** [Writer::new]. *)
Definition writer_new (f : file) : outcome Writer :=
  let '(f, _) := seek_start f 0 in
  let f := file_write f (repeat 0 (Z.to_nat MAIN_TABLE_SIZE_BYTES)) in
  Ok (mkWriter f (repeat [ie_default] 256)).

(** [Writer::seek]: the position as [u32]. *)
Definition writer_seek_end (w : Writer) : outcome (Writer * Z) :=
  let '(f, n) := seek_end (w_file w) in Ok (mkWriter f (w_index w), as_u32 n).

(** The record [put] writes: [(klen, vlen, key, value)]. *)
Definition record_bytes (key value : list Z) : list Z :=
  put_u32_le (as_u32 (Z.of_nat (length key))) ++
  put_u32_le (as_u32 (Z.of_nat (length value))) ++ key ++ value.

(** [Writer::put]. *)
Definition put (w : Writer) (key value : list Z) : outcome Writer :=
  let '(f, pos) := seek_current (w_file w) in
  let ptr := as_u32 pos in
  let f := file_write f (record_bytes key value) in
  let hash := cdb_hash key in
  tbl <- vec_get (w_index w) (table hash) ;;
  index <- vec_set (w_index w) (table hash) (tbl ++ [mkIndexEntry hash ptr]) ;;
  Ok (mkWriter f index).

Section Place.

Variables (length slot0 : Z) (idx_ent : IndexEntry).

(** The [for i in 0..length] probing loop of [Writer::finalize] placing
    [idx_ent], from [i] on, with [fuel] iterations left. *)
Fixpoint place_loop (fuel : nat) (i : Z) (ordered : list IndexEntry)
  : outcome (list IndexEntry) :=
  match fuel with
  | O => Ok ordered
  | S fuel' =>
      s <- add_u32 i slot0 ;;
      j <- rem s length ;;
      cur <- vec_get ordered j ;;
      if ie_ptr cur =? 0 then vec_set ordered j idx_ent
      else place_loop fuel' (i + 1) ordered
  end.

End Place.

(** [for idx_ent in tbl { .. }]: placing the entries of one bucket. *)
Fixpoint place_all (length : Z) (tbl : list IndexEntry) (ordered : list IndexEntry)
  : outcome (list IndexEntry) :=
  match tbl with
  | [] => Ok ordered
  | idx_ent :: tbl' =>
      sl <- slot (ie_hash idx_ent) length ;;
      ordered <- place_loop length sl idx_ent (Z.to_nat length) 0 ordered ;;
      place_all length tbl' ordered
  end.

Definition encode_entry (e : IndexEntry) : list Z :=
  put_u32_le (ie_hash e) ++ put_u32_le (ie_ptr e).

Definition encode_bucket (b : Bucket) : list Z :=
  put_u32_le (b_ptr b) ++ put_u32_le (b_num_ents b).

(** The secondary table of one bucket, in memory: [ordered]. *)
Definition ordered_table (tbl : list IndexEntry) : outcome (Z * list IndexEntry) :=
  let length := as_u32 (Z.of_nat (List.length tbl) * 2) in
  ordered <- place_all length tbl (repeat ie_default (Z.to_nat length)) ;;
  Ok (length, ordered).

(** The body of [for tbl in idx] of [Writer::finalize]. *)
Fixpoint write_tables (w : Writer) (idx : list (list IndexEntry)) (buckets : list Bucket)
  : outcome (Writer * list Bucket) :=
  match idx with
  | [] => Ok (w, buckets)
  | tbl :: idx' =>
      lo <- ordered_table tbl ;;
      let '(length, ordered) := lo in
      wp <- writer_seek_end w ;;
      let '(w, ptr) := wp in
      let buckets := buckets ++ [mkBucket ptr length] in
      let f := file_write (w_file w) (concat (map encode_entry ordered)) in
      write_tables (mkWriter f (w_index w)) idx' buckets
  end.

(** [Writer::finalize]. *)
Definition finalize (w : Writer) : outcome Writer :=
  let '(f, _) := seek_end (w_file w) in
  let w := mkWriter f (w_index w) in
  wb <- write_tables w (w_index w) [] ;;
  let '(w, buckets) := wb in
  let '(f, _) := seek_start (w_file w) 0 in
  let f := file_write f (concat (map encode_bucket buckets)) in
  let '(f, _) := seek_start f 0 in
  Ok (mkWriter f (w_index w)).

Fixpoint put_all (w : Writer) (kvs : list (list Z * list Z)) : outcome Writer :=
  match kvs with
  | [] => Ok w
  | (k, v) :: kvs' => w <- put w k v ;; put_all w kvs'
  end.

(** The writer after [Writer::new] on an empty file and the puts, before
    finalisation. *)
Definition writer_after (kvs : list (list Z * list Z)) : outcome Writer :=
  w <- writer_new empty_file ;; put_all w kvs.

(** The finalised file: [Writer::new] on an empty file, the puts in order,
    then [finalize] (run by [Drop]). *)
Definition build (kvs : list (list Z * list Z)) : outcome (list Z) :=
  w <- writer_after kvs ;;
  w <- finalize w ;;
  Ok (contents (w_file w)).

Definition str (s : String.string) : list Z :=
  map (fun c => Z.of_nat (Ascii.nat_of_ascii c)) (String.list_ascii_of_string s).

Definition test_kvs : list (list Z * list Z) :=
  [(str "abc"%string, str "def"%string); (str "pink"%string, str "red"%string);
   (str "apple"%string, str "grape"%string); (str "q"%string, str "burp"%string)].

(** ** The layout of a finalised file

    Pure descriptions of what the writer lays out, used to state and prove
    the properties of the embedded code above. *)

(** The records [put] appends, in order. *)
Fixpoint records (kvs : list (list Z * list Z)) : list Z :=
  match kvs with
  | [] => []
  | (k, v) :: kvs' => record_bytes k v ++ records kvs'
  end.

(** The index entries [put] pushes, the first record starting at [pos]. *)
Fixpoint entries_from (pos : Z) (kvs : list (list Z * list Z)) : list IndexEntry :=
  match kvs with
  | [] => []
  | (k, v) :: kvs' =>
      mkIndexEntry (cdb_hash k) (as_u32 pos)
        :: entries_from (pos + Z.of_nat (length (record_bytes k v))) kvs'
  end.

Definition in_bucket (b : Z) (e : IndexEntry) : bool := table (ie_hash e) =? b.

(** The list the writer holds for bucket [b]: the default entry of
    [Writer::new], then the entries pushed into [b]. *)
Definition bucket_list (es : list IndexEntry) (b : Z) : list IndexEntry :=
  ie_default :: filter (in_bucket b) es.

Definition zrange (n : nat) : list Z := map Z.of_nat (seq 0 n).

Definition index_of (es : list IndexEntry) : list (list IndexEntry) :=
  map (bucket_list es) (zrange 256).

(** The secondary table [finalize] computes for a bucket list (a dummy when
    the computation does not succeed). *)
Definition ot (tbl : list IndexEntry) : Z * list IndexEntry :=
  match ordered_table tbl with Ok r => r | _ => (0, []) end.

Fixpoint tables_bytes (idx : list (list IndexEntry)) : list Z :=
  match idx with
  | [] => []
  | tbl :: idx' => concat (map encode_entry (snd (ot tbl))) ++ tables_bytes idx'
  end.

(** The primary-table entries [finalize] collects, the first secondary table
    starting at [pos]. *)
Fixpoint buckets_from (pos : Z) (idx : list (list IndexEntry)) : list Bucket :=
  match idx with
  | [] => []
  | tbl :: idx' =>
      mkBucket (as_u32 pos) (fst (ot tbl))
        :: buckets_from (pos + 8 * Z.of_nat (length (snd (ot tbl)))) idx'
  end.

(** The writer's bucket lists when [finalize] runs. *)
Definition final_index (kvs : list (list Z * list Z)) : list (list IndexEntry) :=
  index_of (entries_from MAIN_TABLE_SIZE_BYTES kvs).

(** The finalised file: primary table, records, secondary tables. *)
Definition layout (kvs : list (list Z * list Z)) : list Z :=
  concat (map encode_bucket
            (buckets_from (MAIN_TABLE_SIZE_BYTES + Z.of_nat (length (records kvs)))
                          (final_index kvs)))
  ++ records kvs ++ tables_bytes (final_index kvs).

(** The size of the finalised file built from [kvs]: the primary table, the
    records, and [2 * (k + 1)] slots of 8 bytes for a bucket holding [k]
    entries. *)
Definition cdb_size (kvs : list (list Z * list Z)) : Z :=
  MAIN_TABLE_SIZE_BYTES + Z.of_nat (length (records kvs))
  + 16 * (Z.of_nat (length kvs) + MAIN_TABLE_SIZE).

Definition is_byte (b : Z) : Prop := 0 <= b < 256.

(** ** Secondary tables as lists of slots *)

Definition slot_at (t : list IndexEntry) (j : Z) : IndexEntry :=
  nth (Z.to_nat j) t ie_default.

Definition occupied (e : IndexEntry) : bool := negb (ie_ptr e =? 0).

Definition start_of (n : Z) (e : IndexEntry) : Z := Z.shiftr (ie_hash e) 8 mod n.

(** Entry [e] sits in [t], and every slot probed from its preferred slot
    before reaching it is occupied. *)
Definition reaches (t : list IndexEntry) (n : Z) (e : IndexEntry) : Prop :=
  exists d, 0 <= d < n /\ slot_at t ((start_of n e + d) mod n) = e /\
    forall d', 0 <= d' < d -> occupied (slot_at t ((start_of n e + d') mod n)) = true.

Definition nocc (t : list IndexEntry) : nat := length (filter occupied t).

(** What placing the entries [placed] into a table of [n] slots leaves. *)
Record table_inv (t : list IndexEntry) (n : Z) (placed : list IndexEntry) : Prop := {
  ti_length : Z.of_nat (length t) = n;
  ti_all : forall j, 0 <= j -> slot_at t j = ie_default \/ In (slot_at t j) placed;
  ti_reach : forall e, In e placed -> occupied e = true -> reaches t n e;
  ti_from : forall j, 0 <= j < n -> occupied (slot_at t j) = true -> In (slot_at t j) placed;
  ti_count : nocc t = length (filter occupied placed)
}.

(** ** Basic lemmas *)

Lemma bind_ok {A B} (a : A) (k : A -> outcome B) : bind (Ok a) k = k a.
Proof. reflexivity. Qed.

Lemma put_u32_le_length x : length (put_u32_le x) = 4%nat.
Proof. reflexivity. Qed.

Lemma get_put_u32_le_mod x rest :
  get_u32_le (put_u32_le x ++ rest) = x mod u32_modulus.
Proof.
  unfold u32_modulus. cbn [get_u32_le put_u32_le app].
  rewrite !Z.shiftl_mul_pow2 by lia.
  rewrite !Z.shiftr_div_pow2 by lia.
  change 255 with (Z.ones 8). rewrite !Z.land_ones by lia.
  assert (E1 := Z.div_mod x (2^8) ltac:(lia)).
  assert (E2 := Z.div_mod (x / 2^8) (2^8) ltac:(lia)).
  assert (E3 := Z.div_mod (x / 2^16) (2^8) ltac:(lia)).
  assert (E4 := Z.div_mod (x / 2^24) (2^8) ltac:(lia)).
  assert (E5 := Z.div_mod x (2^32) ltac:(lia)).
  rewrite Z.div_div in E2, E3, E4 by lia.
  change (2^8 * 2^8) with (2^16) in E2, E3, E4. change (2^16 * 2^8) with (2^24) in E3, E4.
  change (2^24 * 2^8) with (2^32) in E4.
  lia.
Qed.

Lemma get_put_u32_le x rest :
  0 <= x < u32_modulus -> get_u32_le (put_u32_le x ++ rest) = x.
Proof. intros. rewrite get_put_u32_le_mod. now apply Z.mod_small. Qed.

Lemma slice_mid (pre mid post : list Z) a b :
  a = Z.of_nat (length pre) -> b = a + Z.of_nat (length mid) ->
  slice (pre ++ mid ++ post) a b = Ok mid.
Proof.
  intros -> ->. unfold slice. rewrite !length_app.
  replace ((0 <=? Z.of_nat (length pre)) && (Z.of_nat (length pre) <=? Z.of_nat (length pre) + Z.of_nat (length mid))
           && (Z.of_nat (length pre) + Z.of_nat (length mid) <=? Z.of_nat (length pre + (length mid + length post))))
    with true by (symmetry; rewrite !andb_true_iff, !Z.leb_le; lia).
  rewrite Nat2Z.id. replace (Z.to_nat _) with (length mid) by lia.
  rewrite skipn_app, skipn_all2 by lia. rewrite Nat.sub_diag. cbn [app skipn].
  rewrite firstn_app, firstn_all2 by lia. rewrite Nat.sub_diag. cbn. now rewrite app_nil_r.
Qed.

Lemma slice_range data a b l : slice data a b = Ok l ->
  0 <= a <= b /\ b <= Z.of_nat (length data) /\ Z.of_nat (length l) = b - a.
Proof.
  unfold slice. destruct ((0 <=? a) && (a <=? b) && (b <=? Z.of_nat (length data))) eqn:E;
    [|discriminate]. intros H; inversion H; subst; clear H.
  rewrite !andb_true_iff, !Z.leb_le in E. rewrite length_firstn, length_skipn. lia.
Qed.

Lemma file_write_end (c bs : list Z) :
  file_write (mkFile c (Z.of_nat (length c))) bs
  = mkFile (c ++ bs) (Z.of_nat (length (c ++ bs))).
Proof.
  unfold file_write; cbn [contents cursor]. rewrite Nat2Z.id, Nat.sub_diag, firstn_all.
  rewrite skipn_all2 by lia. rewrite app_nil_r, length_app. f_equal. lia.
Qed.

Lemma vec_get_ok {A} (l : list A) (i : Z) d :
  0 <= i < Z.of_nat (length l) -> vec_get l i = Ok (nth (Z.to_nat i) l d).
Proof.
  intros Hi. unfold vec_get. replace (0 <=? i) with true by (symmetry; apply Z.leb_le; lia).
  destruct (nth_error l (Z.to_nat i)) eqn:E.
  - f_equal. symmetry. now apply nth_error_nth.
  - apply nth_error_None in E. lia.
Qed.

Lemma vec_set_ok {A} (l : list A) (i : Z) x :
  0 <= i < Z.of_nat (length l) ->
  vec_set l i x = Ok (firstn (Z.to_nat i) l ++ x :: skipn (S (Z.to_nat i)) l).
Proof.
  intros Hi. unfold vec_set.
  replace ((0 <=? i) && (i <? Z.of_nat (length l))) with true
    by (symmetry; rewrite andb_true_iff, Z.leb_le, Z.ltb_lt; lia). reflexivity.
Qed.

Lemma replace_length {A} (l : list A) j x : (j < length l)%nat ->
  length (firstn j l ++ x :: skipn (S j) l) = length l.
Proof. intros. rewrite length_app, length_firstn. cbn [length]. rewrite length_skipn. lia. Qed.

Lemma replace_nth {A} (l : list A) j x k d : (j < length l)%nat ->
  nth k (firstn j l ++ x :: skipn (S j) l) d = if Nat.eqb k j then x else nth k l d.
Proof.
  intros Hj. destruct (Nat.lt_trichotomy k j) as [Hk | [Hk | Hk]].
  - rewrite app_nth1 by (rewrite length_firstn; lia). rewrite nth_firstn.
    replace (k <? j)%nat with true by (symmetry; apply Nat.ltb_lt; lia).
    replace (Nat.eqb k j) with false by (symmetry; apply Nat.eqb_neq; lia). reflexivity.
  - subst. rewrite app_nth2 by (rewrite length_firstn; lia).
    rewrite length_firstn. replace (j - min j (length l))%nat with 0%nat by lia.
    rewrite Nat.eqb_refl. reflexivity.
  - rewrite app_nth2 by (rewrite length_firstn; lia). rewrite length_firstn.
    replace (k - min j (length l))%nat with (S (k - S j)) by lia. cbn [nth].
    rewrite nth_skipn. replace (Nat.eqb k j) with false by (symmetry; apply Nat.eqb_neq; lia).
    f_equal. lia.
Qed.

Lemma skipn_nth {A} (l : list A) j d : (j < length l)%nat ->
  skipn j l = nth j l d :: skipn (S j) l.
Proof.
  revert j. induction l as [|a l IH]; intros j Hj; cbn in Hj; [lia|].
  destruct j; [reflexivity|]. cbn [skipn nth]. apply IH. lia.
Qed.

Lemma replace_filter {A} (f : A -> bool) (l : list A) j x d : (j < length l)%nat ->
  (length (filter f (firstn j l ++ x :: skipn (S j) l))
   + (if f (nth j l d) then 1 else 0)
   = length (filter f l) + (if f x then 1 else 0))%nat.
Proof.
  intros Hj.
  pose proof (firstn_skipn j l) as E. rewrite (skipn_nth l j d Hj) in E.
  set (a := firstn j l) in *. set (y := nth j l d) in *. set (b := skipn (S j) l) in *.
  rewrite <- E. clearbody a y b.
  rewrite !filter_app, !length_app. cbn [filter].
  destruct (f x), (f y); cbn [length]; lia.
Qed.

(** ** Placement of the entries of one bucket ([Writer::finalize]) *)

Definition replace_at (t : list IndexEntry) (j : Z) (e : IndexEntry) : list IndexEntry :=
  firstn (Z.to_nat j) t ++ e :: skipn (S (Z.to_nat j)) t.

Lemma slot_at_replace t j e k :
  0 <= j < Z.of_nat (length t) -> 0 <= k ->
  slot_at (replace_at t j e) k = if k =? j then e else slot_at t k.
Proof.
  intros Hj Hk. unfold slot_at, replace_at. rewrite replace_nth by lia.
  destruct (Z.eqb_spec k j), (Nat.eqb_spec (Z.to_nat k) (Z.to_nat j)); auto; lia.
Qed.

Lemma replace_at_length t j e :
  0 <= j < Z.of_nat (length t) -> length (replace_at t j e) = length t.
Proof. intros. unfold replace_at. apply replace_length. lia. Qed.

Lemma mod_range a n : 0 < n -> 0 <= a mod n < n.
Proof. intros. apply Z.mod_pos_bound. lia. Qed.

Lemma place_loop_ok (n s : Z) (e : IndexEntry) (t : list IndexEntry) :
  0 < n -> 2 * n <= u32_modulus -> 0 <= s < n -> Z.of_nat (length t) = n ->
  forall fuel i, 0 <= i -> i + Z.of_nat fuel = n ->
  (forall d', 0 <= d' < i -> occupied (slot_at t ((s + d') mod n)) = true) ->
  (exists d, i <= d < n /\ occupied (slot_at t ((s + d) mod n)) = false) ->
  exists d, i <= d < n /\ occupied (slot_at t ((s + d) mod n)) = false /\
    (forall d', 0 <= d' < d -> occupied (slot_at t ((s + d') mod n)) = true) /\
    place_loop n s e fuel i t = Ok (replace_at t ((s + d) mod n) e).
Proof.
  intros Hn Hbound Hs Hlen fuel. induction fuel as [|fuel IH]; intros i Hi Hfuel Hocc Hfree.
  - destruct Hfree as [d Hd]. lia.
  - cbn [place_loop]. unfold add_u32.
    replace (i + s <? u32_modulus) with true by (symmetry; apply Z.ltb_lt; lia).
    rewrite bind_ok. unfold rem. replace (n =? 0) with false by (symmetry; apply Z.eqb_neq; lia).
    rewrite bind_ok. pose proof (mod_range (i + s) n Hn) as Hj.
    rewrite (vec_get_ok t ((i + s) mod n) ie_default) by lia. rewrite bind_ok.
    replace (i + s) with (s + i) in * by lia. fold (slot_at t ((s + i) mod n)).
    destruct (ie_ptr (slot_at t ((s + i) mod n)) =? 0) eqn:E.
    + exists i. split; [lia|]. split; [unfold occupied; now rewrite E|]. split; [assumption|].
      rewrite vec_set_ok by lia. reflexivity.
    + destruct (IH (i + 1)) as (d & Hd & Hdf & Hdo & Hrun).
      * lia.
      * lia.
      * intros d' Hd'. destruct (Z.eq_dec d' i) as [->|Hne].
        -- unfold occupied. now rewrite E.
        -- apply Hocc. lia.
      * destruct Hfree as [d [Hd Hdf]]. exists d. split; [|assumption].
        destruct (Z.eq_dec d i) as [->|Hne]; [|lia].
        unfold occupied in Hdf. rewrite E in Hdf. discriminate.
      * exists d. split; [lia|]. split; [assumption|]. split; [assumption|]. exact Hrun.
Qed.

Lemma reaches_mono t t' n e :
  0 < n -> occupied e = true ->
  (forall j, 0 <= j < n -> occupied (slot_at t j) = true -> slot_at t' j = slot_at t j) ->
  reaches t n e -> reaches t' n e.
Proof.
  intros Hn He Hkeep (d & Hd & Hat & Hpath). exists d. split; [assumption|]. split.
  - rewrite Hkeep; [assumption | apply mod_range; lia | now rewrite Hat].
  - intros d' Hd'. rewrite Hkeep; [now apply Hpath | apply mod_range; lia | now apply Hpath].
Qed.

Lemma all_occupied_nocc t :
  (forall x, In x t -> occupied x = true) -> nocc t = length t.
Proof.
  unfold nocc. induction t as [|x t IH]; intros H; [reflexivity|].
  cbn [filter length]. rewrite (H x (or_introl eq_refl)). cbn [length].
  f_equal. apply IH. intros y Hy. apply H. now right.
Qed.

Lemma free_slot_exists t :
  (nocc t < length t)%nat ->
  exists j, 0 <= j < Z.of_nat (length t) /\ occupied (slot_at t j) = false.
Proof.
  unfold nocc. induction t as [|x t IH]; intros Hlt; cbn [length filter] in *; [lia|].
  destruct (occupied x) eqn:Ex.
  - cbn [length] in Hlt. destruct IH as (j & Hj & Hfree); [lia|].
    exists (j + 1). split; [lia|]. unfold slot_at in *.
    replace (Z.to_nat (j + 1)) with (S (Z.to_nat j)) by lia. exact Hfree.
  - exists 0. split; [lia|]. exact Ex.
Qed.

Lemma place_one n t placed e :
  0 < n -> 2 * n <= u32_modulus -> table_inv t n placed ->
  (length (filter occupied placed) < Z.to_nat n)%nat ->
  exists t', place_loop n (start_of n e) e (Z.to_nat n) 0 t = Ok t' /\
             table_inv t' n (placed ++ [e]).
Proof.
  intros Hn Hb [Hlen Hall Hreach Hfrom Hcount] Hlt.
  destruct (free_slot_exists t) as (j & Hj & Hjfree); [rewrite Hcount; lia|].
  set (s := start_of n e). assert (Hs : 0 <= s < n) by (apply mod_range; lia).
  destruct (place_loop_ok n s e t Hn Hb Hs Hlen (Z.to_nat n) 0) as (d & Hd & Hdfree & Hpath & Hrun).
  - lia.
  - lia.
  - intros; lia.
  - exists ((j - s) mod n). pose proof (mod_range (j - s) n Hn). split; [lia|].
    rewrite Z.add_mod_idemp_r by lia. replace (s + (j - s)) with j by lia.
    rewrite Z.mod_small by lia. exact Hjfree.
  - set (js := (s + d) mod n) in *. assert (Hjs : 0 <= js < n) by (apply mod_range; lia).
    assert (Hkeep : forall k, 0 <= k < n -> occupied (slot_at t k) = true ->
                    slot_at (replace_at t js e) k = slot_at t k).
    { intros k Hk Hok. rewrite slot_at_replace by lia.
      destruct (Z.eqb_spec k js) as [->|]; [congruence | reflexivity]. }
    exists (replace_at t js e). split; [exact Hrun|]. constructor.
    + rewrite replace_at_length by lia. assumption.
    + intros k Hk. rewrite slot_at_replace by lia. destruct (Z.eqb_spec k js).
      * right. apply in_or_app. right. now left.
      * destruct (Hall k Hk) as [H|H]; [now left | right; apply in_or_app; now left].
    + intros e' Hin Hocc. apply in_app_or in Hin. destruct Hin as [Hin | [<- | []]].
      * apply reaches_mono with (t := t); auto.
      * exists d. split; [lia|]. split.
        -- fold s. fold js. rewrite slot_at_replace by lia. now rewrite Z.eqb_refl.
        -- intros d' Hd'. fold s. rewrite Hkeep; [now apply Hpath | apply mod_range; lia | now apply Hpath].
    + intros k Hk Hok. rewrite slot_at_replace in * by lia. destruct (Z.eqb_spec k js).
      * apply in_or_app. right. now left.
      * apply in_or_app. left. now apply Hfrom.
    + unfold nocc, replace_at in *. rewrite filter_app with (l := placed), length_app.
      assert (R := replace_filter occupied t (Z.to_nat js) e ie_default ltac:(lia)).
      fold (slot_at t js) in R. rewrite Hdfree in R.
      cbn [filter length] in *; destruct (occupied e); cbn [length] in *; lia.
Qed.

Lemma place_all_ok n tbl :
  forall placed t, 0 < n -> 2 * n <= u32_modulus -> table_inv t n placed ->
  (length (filter occupied (placed ++ tbl)) < Z.to_nat n)%nat ->
  exists t', place_all n tbl t = Ok t' /\ table_inv t' n (placed ++ tbl).
Proof.
  induction tbl as [|e tbl IH]; intros placed t Hn Hb Hinv Hlt.
  - exists t. rewrite app_nil_r. split; [reflexivity | assumption].
  - cbn [place_all]. unfold slot, rem. replace (n =? 0) with false by (symmetry; apply Z.eqb_neq; lia).
    rewrite bind_ok. fold (start_of n e).
    destruct (place_one n t placed e Hn Hb Hinv) as (t1 & Hrun & Hinv1).
    { rewrite filter_app, length_app in Hlt. lia. }
    rewrite Hrun, bind_ok.
    replace (placed ++ e :: tbl) with ((placed ++ [e]) ++ tbl) in * by (now rewrite <- app_assoc).
    apply IH; auto.
Qed.

Lemma table_inv_init n :
  0 <= n -> table_inv (repeat ie_default (Z.to_nat n)) n [].
Proof.
  intros Hn. constructor.
  - rewrite repeat_length. lia.
  - intros j Hj. left. unfold slot_at. apply nth_repeat.
  - intros e [].
  - intros j Hj. unfold slot_at. rewrite nth_repeat. discriminate.
  - unfold nocc. cbn. induction (Z.to_nat n); [reflexivity | exact IHn0].
Qed.

Lemma ordered_table_ok tbl :
  (1 <= length tbl)%nat -> 4 * Z.of_nat (length tbl) <= u32_modulus ->
  exists t, ordered_table tbl = Ok (2 * Z.of_nat (length tbl), t) /\
            table_inv t (2 * Z.of_nat (length tbl)) tbl.
Proof.
  intros H1 Hb. unfold ordered_table.
  replace (as_u32 (Z.of_nat (length tbl) * 2)) with (2 * Z.of_nat (length tbl)).
  2:{ unfold as_u32. rewrite Z.mod_small; unfold u32_modulus in *; lia. }
  destruct (place_all_ok (2 * Z.of_nat (length tbl)) tbl [] (repeat ie_default (Z.to_nat (2 * Z.of_nat (length tbl)))))
    as (t & Hrun & Hinv).
  - lia.
  - lia.
  - apply table_inv_init. lia.
  - cbn [app]. pose proof (filter_length_le occupied tbl). lia.
  - exists t. rewrite Hrun, bind_ok. split; [reflexivity | exact Hinv].
Qed.

(** ** The writer's state after [Writer::new] and the puts *)

Lemma zrange_nth k : (k < 256)%nat -> nth k (zrange 256) 0 = Z.of_nat k.
Proof.
  intros Hk. unfold zrange. rewrite nth_indep with (d' := Z.of_nat 0)
    by (rewrite length_map, length_seq; lia).
  rewrite map_nth, seq_nth by lia. reflexivity.
Qed.

Lemma index_of_length es : length (index_of es) = 256%nat.
Proof. unfold index_of, zrange. now rewrite length_map, length_map, length_seq. Qed.

Lemma index_of_nth es k : (k < 256)%nat -> nth k (index_of es) [] = bucket_list es (Z.of_nat k).
Proof.
  intros Hk. unfold index_of. rewrite nth_indep with (d' := bucket_list es 0)
    by (rewrite length_map; unfold zrange; rewrite length_map, length_seq; lia).
  rewrite map_nth, zrange_nth by assumption. reflexivity.
Qed.

Lemma table_range h : 0 <= table h < 256.
Proof. unfold table, MAIN_TABLE_SIZE. apply Z.mod_pos_bound. lia. Qed.

Lemma bucket_list_app es e b :
  bucket_list (es ++ [e]) b =
  bucket_list es b ++ (if in_bucket b e then [e] else []).
Proof. unfold bucket_list. rewrite filter_app. reflexivity. Qed.

Lemma index_of_push es e :
  vec_set (index_of es) (table (ie_hash e)) (bucket_list es (table (ie_hash e)) ++ [e])
  = Ok (index_of (es ++ [e])).
Proof.
  pose proof (table_range (ie_hash e)) as Ht.
  rewrite vec_set_ok by (rewrite index_of_length; lia). f_equal.
  apply nth_ext with (d := []) (d' := []).
  - rewrite replace_length, !index_of_length; [reflexivity|]. rewrite index_of_length. lia.
  - intros k Hk. rewrite replace_length in Hk by (rewrite index_of_length; lia).
    rewrite index_of_length in Hk.
    rewrite replace_nth by (rewrite index_of_length; lia).
    rewrite !index_of_nth by assumption. rewrite bucket_list_app.
    unfold in_bucket. destruct (Nat.eqb_spec k (Z.to_nat (table (ie_hash e)))) as [->|Hne].
    + rewrite Z2Nat.id by lia. rewrite Z.eqb_refl. reflexivity.
    + replace (table (ie_hash e) =? Z.of_nat k) with false by (symmetry; apply Z.eqb_neq; lia).
      now rewrite app_nil_r.
Qed.

Lemma put_step c es k v :
  put (mkWriter (mkFile c (Z.of_nat (length c))) (index_of es)) k v
  = Ok (mkWriter (mkFile (c ++ record_bytes k v) (Z.of_nat (length (c ++ record_bytes k v))))
                 (index_of (es ++ [mkIndexEntry (cdb_hash k) (as_u32 (Z.of_nat (length c)))]))).
Proof.
  unfold put. cbn [seek_current w_file w_index]. rewrite file_write_end.
  pose proof (table_range (cdb_hash k)) as Ht.
  rewrite (vec_get_ok _ _ []) by (rewrite index_of_length; lia). rewrite bind_ok.
  replace (Z.to_nat (table (cdb_hash k))) with (Z.to_nat (table (cdb_hash k))) by reflexivity.
  rewrite index_of_nth by lia. rewrite Z2Nat.id by lia.
  pose proof (index_of_push es (mkIndexEntry (cdb_hash k) (as_u32 (Z.of_nat (length c))))) as P.
  cbn [ie_hash] in P. cbn [cursor]. rewrite P. reflexivity.
Qed.

Lemma put_all_spec kvs : forall c es,
  put_all (mkWriter (mkFile c (Z.of_nat (length c))) (index_of es)) kvs
  = Ok (mkWriter (mkFile (c ++ records kvs) (Z.of_nat (length (c ++ records kvs))))
                 (index_of (es ++ entries_from (Z.of_nat (length c)) kvs))).
Proof.
  induction kvs as [|[k v] kvs IH]; intros c es.
  - cbn. now rewrite !app_nil_r.
  - cbn [put_all]. rewrite put_step, bind_ok, IH. cbn [records entries_from].
    rewrite <- !app_assoc. cbn [app]. rewrite (length_app c (record_bytes k v)), Nat2Z.inj_add.
    reflexivity.
Qed.

Lemma writer_after_spec kvs :
  writer_after kvs
  = Ok (mkWriter (mkFile (repeat 0 2048 ++ records kvs)
                         (Z.of_nat (length (repeat 0 2048 ++ records kvs))))
                 (index_of (entries_from 2048 kvs))).
Proof.
  unfold writer_after.
  replace (writer_new empty_file)
    with (Ok (mkWriter (mkFile (repeat 0 2048) (Z.of_nat (length (repeat 0 2048)))) (index_of [])))
    by reflexivity.
  rewrite bind_ok, put_all_spec. reflexivity.
Qed.

(** ** The file after [finalize] *)

Lemma encode_entries_length l : length (concat (map encode_entry l)) = (8 * length l)%nat.
Proof. induction l as [|e l IH]; [reflexivity|]. cbn [map concat length]. rewrite length_app, IH. cbn. lia. Qed.

Lemma encode_buckets_length l : length (concat (map encode_bucket l)) = (8 * length l)%nat.
Proof. induction l as [|e l IH]; [reflexivity|]. cbn [map concat length]. rewrite length_app, IH. cbn. lia. Qed.

Lemma buckets_from_length idx : forall pos, length (buckets_from pos idx) = length idx.
Proof. induction idx as [|tbl idx IH]; intros; cbn; [reflexivity | now rewrite IH]. Qed.

Lemma ot_ok tbl r : ordered_table tbl = Ok r -> ot tbl = r.
Proof. unfold ot. now intros ->. Qed.

Lemma write_tables_spec idx : forall c cur I bs,
  (forall tbl, In tbl idx -> exists r, ordered_table tbl = Ok r) ->
  exists cur', write_tables (mkWriter (mkFile c cur) I) idx bs
    = Ok (mkWriter (mkFile (c ++ tables_bytes idx) cur') I,
          bs ++ buckets_from (Z.of_nat (length c)) idx).
Proof.
  induction idx as [|tbl idx IH]; intros c cur I bs Hok.
  - exists cur. cbn. now rewrite !app_nil_r.
  - destruct (Hok tbl (or_introl eq_refl)) as [[len ord] Hr].
    cbn [write_tables]. rewrite Hr, bind_ok. cbn beta iota.
    unfold writer_seek_end, seek_end. cbn [w_file w_index contents]. rewrite bind_ok. cbn beta iota.
    cbn [w_file w_index]. rewrite file_write_end.
    destruct (IH (c ++ concat (map encode_entry ord)) (Z.of_nat (length (c ++ concat (map encode_entry ord))))
                 I (bs ++ [mkBucket (as_u32 (Z.of_nat (length c))) len]))
      as [cur' Hrun]; [intros t Ht; apply Hok; now right|].
    exists cur'. rewrite Hrun. cbn [tables_bytes buckets_from]. rewrite (ot_ok _ _ Hr). cbn [fst snd].
    rewrite <- !app_assoc. cbn [app]. rewrite length_app, encode_entries_length, Nat2Z.inj_add.
    rewrite Nat2Z.inj_mul. reflexivity.
Qed.

Lemma finalize_spec z rest cur I :
  length z = 2048%nat -> length I = 256%nat ->
  (forall tbl, In tbl I -> exists r, ordered_table tbl = Ok r) ->
  finalize (mkWriter (mkFile (z ++ rest) cur) I)
  = Ok (mkWriter (mkFile (concat (map encode_bucket
                                (buckets_from (Z.of_nat (length (z ++ rest))) I))
                          ++ rest ++ tables_bytes I) 0) I).
Proof.
  intros Hz Hlen Hok. unfold finalize, seek_end. cbn [w_file w_index contents].
  destruct (write_tables_spec I (z ++ rest) (Z.of_nat (length (z ++ rest))) I [] Hok)
    as [cur' Hrun].
  rewrite Hrun, bind_ok. cbn beta iota. unfold seek_start, file_write.
  cbn [w_file w_index contents cursor app].
  rewrite encode_buckets_length, buckets_from_length, Hlen.
  change (Z.to_nat 0) with 0%nat. rewrite Nat.sub_0_l. cbn [firstn repeat app].
  rewrite <- app_assoc, skipn_app, skipn_all2 by lia.
  rewrite Hz. replace (0 + 8 * 256 - 2048)%nat with 0%nat by lia.
  reflexivity.
Qed.

Lemma entries_from_length kvs : forall p, length (entries_from p kvs) = length kvs.
Proof. induction kvs as [|[k v] kvs IH]; intros; cbn; [reflexivity | now rewrite IH]. Qed.

Lemma bucket_list_length es b : (1 <= length (bucket_list es b) <= 1 + length es)%nat.
Proof. unfold bucket_list. cbn [length]. pose proof (filter_length_le (in_bucket b) es). lia. Qed.

Lemma index_tables_ok es :
  4 * (1 + Z.of_nat (length es)) <= u32_modulus ->
  forall tbl, In tbl (index_of es) -> exists r, ordered_table tbl = Ok r.
Proof.
  intros Hb tbl Hin. unfold index_of in Hin. apply in_map_iff in Hin.
  destruct Hin as (b & <- & _). pose proof (bucket_list_length es b).
  destruct (ordered_table_ok (bucket_list es b)) as (t & Ht & _); [lia | lia |].
  eexists. exact Ht.
Qed.

Lemma cdb_size_bound kvs :
  cdb_size kvs < u32_modulus -> 4 * (1 + Z.of_nat (length kvs)) <= u32_modulus.
Proof. unfold cdb_size, u32_modulus, MAIN_TABLE_SIZE_BYTES, MAIN_TABLE_SIZE. lia. Qed.

Lemma build_spec kvs : cdb_size kvs < u32_modulus -> build kvs = Ok (layout kvs).
Proof.
  intros Hsize. unfold build. rewrite writer_after_spec, bind_ok.
  rewrite finalize_spec.
  - rewrite bind_ok. unfold layout, final_index. cbn [w_file contents].
    rewrite length_app, repeat_length, Nat2Z.inj_add. reflexivity.
  - apply repeat_length.
  - apply index_of_length.
  - apply index_tables_ok. rewrite entries_from_length. now apply cdb_size_bound.
Qed.

(** ** Reading the finalised file back *)

Lemma concat_map_split {A} (f : A -> list Z) l j d : (j < length l)%nat ->
  concat (map f l) = concat (map f (firstn j l)) ++ f (nth j l d) ++ concat (map f (skipn (S j) l)).
Proof.
  intros Hj. rewrite <- (firstn_skipn j l) at 1. rewrite (skipn_nth l j d Hj).
  rewrite map_app, concat_app. reflexivity.
Qed.

Lemma tables_bytes_app l1 l2 : tables_bytes (l1 ++ l2) = tables_bytes l1 ++ tables_bytes l2.
Proof. induction l1 as [|t l1 IH]; cbn; [reflexivity | now rewrite IH, app_assoc]. Qed.

Lemma tables_bytes_split idx b : (b < length idx)%nat ->
  tables_bytes idx = tables_bytes (firstn b idx)
                     ++ concat (map encode_entry (snd (ot (nth b idx []))))
                     ++ tables_bytes (skipn (S b) idx).
Proof.
  intros Hb. rewrite <- (firstn_skipn b idx) at 1. rewrite (skipn_nth idx b [] Hb).
  rewrite tables_bytes_app. reflexivity.
Qed.

Lemma buckets_from_nth idx : forall b pos, (b < length idx)%nat ->
  nth b (buckets_from pos idx) (mkBucket 0 0)
  = mkBucket (as_u32 (pos + Z.of_nat (length (tables_bytes (firstn b idx)))))
             (fst (ot (nth b idx []))).
Proof.
  induction idx as [|tbl idx IH]; intros b pos Hb; cbn [length] in Hb; [lia|].
  destruct b as [|b].
  - cbn. f_equal. f_equal. lia.
  - cbn [buckets_from nth firstn tables_bytes]. rewrite IH by lia.
    rewrite length_app, encode_entries_length. f_equal. f_equal. lia.
Qed.

Lemma get_put_u32_le_single x : get_u32_le (put_u32_le x) = x mod u32_modulus.
Proof. rewrite <- (app_nil_r (put_u32_le x)). apply get_put_u32_le_mod. Qed.

Lemma skipn_put_u32_le x rest : skipn 4 (put_u32_le x ++ rest) = rest.
Proof. reflexivity. Qed.

Lemma firstn_put_u32_le x rest : firstn 4 (put_u32_le x ++ rest) = put_u32_le x.
Proof. reflexivity. Qed.

Lemma as_u32_idem x : as_u32 x mod u32_modulus = as_u32 x.
Proof. unfold as_u32. apply Z.mod_mod. unfold u32_modulus. lia. Qed.

Lemma bucket_at_layout kvs b :
  0 <= b < 256 ->
  bucket_at (layout kvs) b
  = Ok (mkBucket (as_u32 (MAIN_TABLE_SIZE_BYTES + Z.of_nat (length (records kvs))
                          + Z.of_nat (length (tables_bytes (firstn (Z.to_nat b) (final_index kvs))))))
                 (fst (ot (nth (Z.to_nat b) (final_index kvs) [])) mod u32_modulus)).
Proof.
  intros Hb. unfold bucket_at, assert_.
  replace (b <? MAIN_TABLE_SIZE) with true by (symmetry; apply Z.ltb_lt; unfold MAIN_TABLE_SIZE; lia).
  rewrite bind_ok. unfold layout.
  set (bks := buckets_from _ _).
  assert (Hlen : length bks = 256%nat)
    by (unfold bks, final_index; now rewrite buckets_from_length, index_of_length).
  rewrite (concat_map_split encode_bucket bks (Z.to_nat b) (mkBucket 0 0)) by lia.
  rewrite <- !app_assoc.
  rewrite slice_mid with (mid := encode_bucket (nth (Z.to_nat b) bks (mkBucket 0 0))).
  2:{ rewrite encode_buckets_length, length_firstn. lia. }
  2:{ reflexivity. }
  rewrite bind_ok. unfold bks. rewrite buckets_from_nth by (unfold final_index; rewrite index_of_length; lia).
  unfold encode_bucket. cbn [b_ptr b_num_ents].
  rewrite get_put_u32_le_mod, as_u32_idem.
  rewrite skipn_put_u32_le, get_put_u32_le_single. reflexivity.
Qed.

Definition total_len (idx : list (list IndexEntry)) : nat :=
  fold_right (fun tbl acc => (length tbl + acc)%nat) 0%nat idx.

Lemma total_len_app l1 l2 : total_len (l1 ++ l2) = (total_len l1 + total_len l2)%nat.
Proof. unfold total_len. induction l1 as [|t l1 IH]; cbn [app fold_right]; [reflexivity | rewrite IH; lia]. Qed.

Lemma total_len_replace l j x : (j < length l)%nat ->
  (total_len (firstn j l ++ x :: skipn (S j) l) + length (nth j l [])
   = total_len l + length x)%nat.
Proof.
  intros Hj. pose proof (firstn_skipn j l) as E. rewrite (skipn_nth l j [] Hj) in E.
  set (a := firstn j l) in *. set (y := nth j l []) in *. set (b := skipn (S j) l) in *.
  rewrite <- E. clearbody a y b.
  rewrite !total_len_app. cbn [total_len fold_right]. fold (total_len b). lia.
Qed.

Lemma total_len_index_of es : total_len (index_of es) = (256 + length es)%nat.
Proof.
  induction es as [|e es IH] using rev_ind; [reflexivity|].
  pose proof (index_of_push es e) as P. pose proof (table_range (ie_hash e)) as Ht.
  rewrite vec_set_ok in P by (rewrite index_of_length; lia).
  assert (P' : index_of (es ++ [e]) =
    firstn (Z.to_nat (table (ie_hash e))) (index_of es)
      ++ (bucket_list es (table (ie_hash e)) ++ [e])
      :: skipn (S (Z.to_nat (table (ie_hash e)))) (index_of es))
    by (symmetry; congruence).
  rewrite P'. pose proof (total_len_replace (index_of es) (Z.to_nat (table (ie_hash e)))
                             (bucket_list es (table (ie_hash e)) ++ [e])) as R.
  rewrite index_of_length in R. specialize (R ltac:(lia)).
  rewrite index_of_nth in R by lia. rewrite Z2Nat.id in R by lia.
  rewrite length_app in R. rewrite (length_app es [e]). change (length [e]) with 1%nat in *. lia.
Qed.

Lemma ot_bucket es b :
  4 * (1 + Z.of_nat (length es)) <= u32_modulus ->
  exists t, ot (bucket_list es b) = (2 * Z.of_nat (length (bucket_list es b)), t) /\
            table_inv t (2 * Z.of_nat (length (bucket_list es b))) (bucket_list es b).
Proof.
  intros Hb. pose proof (bucket_list_length es b).
  destruct (ordered_table_ok (bucket_list es b)) as (t & Ht & Hinv); [lia | lia |].
  exists t. split; [now apply ot_ok | exact Hinv].
Qed.

Lemma tables_bytes_length es idx :
  4 * (1 + Z.of_nat (length es)) <= u32_modulus ->
  (forall tbl, In tbl idx -> exists b, tbl = bucket_list es b) ->
  length (tables_bytes idx) = (16 * total_len idx)%nat.
Proof.
  intros Hb. induction idx as [|tbl idx IH]; intros Hin; [reflexivity|].
  cbn [tables_bytes total_len fold_right]. fold (total_len idx).
  rewrite length_app, encode_entries_length, IH by (intros; apply Hin; now right).
  destruct (Hin tbl (or_introl eq_refl)) as [b ->].
  destruct (ot_bucket es b Hb) as (t & -> & Hinv). cbn [snd].
  pose proof (ti_length _ _ _ Hinv). lia.
Qed.

Lemma layout_length kvs :
  cdb_size kvs < u32_modulus -> Z.of_nat (length (layout kvs)) = cdb_size kvs.
Proof.
  intros Hs. pose proof (cdb_size_bound kvs Hs) as Hb.
  unfold layout, cdb_size, final_index. rewrite !length_app, encode_buckets_length.
  rewrite buckets_from_length, index_of_length.
  rewrite (tables_bytes_length (entries_from MAIN_TABLE_SIZE_BYTES kvs)).
  - rewrite total_len_index_of, entries_from_length. unfold MAIN_TABLE_SIZE_BYTES, MAIN_TABLE_SIZE. lia.
  - now rewrite entries_from_length.
  - intros tbl Hin. unfold index_of in Hin. apply in_map_iff in Hin.
    destruct Hin as (b & <- & _). now exists b.
Qed.

(** Where the secondary table of bucket [b] starts. *)
Definition table_pos (kvs : list (list Z * list Z)) (b : Z) : Z :=
  MAIN_TABLE_SIZE_BYTES + Z.of_nat (length (records kvs))
  + Z.of_nat (length (tables_bytes (firstn (Z.to_nat b) (final_index kvs)))).

Lemma header_length kvs :
  length (concat (map encode_bucket
            (buckets_from (MAIN_TABLE_SIZE_BYTES + Z.of_nat (length (records kvs)))
                          (final_index kvs)))) = 2048%nat.
Proof.
  rewrite encode_buckets_length, buckets_from_length. unfold final_index.
  now rewrite index_of_length.
Qed.

Lemma final_index_nth kvs b : 0 <= b < 256 ->
  nth (Z.to_nat b) (final_index kvs) [] = bucket_list (entries_from MAIN_TABLE_SIZE_BYTES kvs) b.
Proof. intros Hb. unfold final_index. rewrite index_of_nth by lia. now rewrite Z2Nat.id by lia. Qed.

Lemma layout_split_table kvs b t j :
  0 <= b < 256 -> ot (nth (Z.to_nat b) (final_index kvs) []) = (fst (ot (nth (Z.to_nat b) (final_index kvs) [])), t) ->
  (j < length t)%nat ->
  layout kvs =
    (concat (map encode_bucket
               (buckets_from (MAIN_TABLE_SIZE_BYTES + Z.of_nat (length (records kvs))) (final_index kvs)))
     ++ records kvs ++ tables_bytes (firstn (Z.to_nat b) (final_index kvs))
     ++ concat (map encode_entry (firstn j t)))
    ++ encode_entry (nth j t ie_default)
    ++ (concat (map encode_entry (skipn (S j) t)) ++ tables_bytes (skipn (S (Z.to_nat b)) (final_index kvs))).
Proof.
  intros Hb Hot Hj. unfold layout at 1.
  rewrite (tables_bytes_split (final_index kvs) (Z.to_nat b))
    by (unfold final_index; rewrite index_of_length; lia).
  rewrite Hot. cbn [snd]. rewrite (concat_map_split encode_entry t j ie_default Hj).
  rewrite <- !app_assoc. reflexivity.
Qed.

Lemma table_pos_bound kvs b j t :
  cdb_size kvs < u32_modulus -> 0 <= b < 256 ->
  ot (nth (Z.to_nat b) (final_index kvs) []) = (fst (ot (nth (Z.to_nat b) (final_index kvs) [])), t) ->
  (j < length t)%nat ->
  table_pos kvs b + Z.of_nat j * 8 + 8 <= cdb_size kvs.
Proof.
  intros Hs Hb Hot Hj. rewrite <- (layout_length kvs Hs).
  rewrite (layout_split_table kvs b t j Hb Hot Hj). unfold table_pos.
  rewrite !length_app, header_length, encode_entries_length, length_firstn.
  unfold encode_entry. rewrite length_app, !put_u32_le_length. unfold MAIN_TABLE_SIZE_BYTES. lia.
Qed.

Lemma index_entry_layout kvs b j t :
  cdb_size kvs < u32_modulus -> 0 <= b < 256 ->
  ot (nth (Z.to_nat b) (final_index kvs) []) = (fst (ot (nth (Z.to_nat b) (final_index kvs) [])), t) ->
  0 <= j < Z.of_nat (length t) ->
  index_entry_at (layout kvs) (table_pos kvs b + j * END_TABLE_ENTRY_SIZE)
  = Ok (mkIndexEntry (ie_hash (slot_at t j) mod u32_modulus) (ie_ptr (slot_at t j) mod u32_modulus)).
Proof.
  intros Hs Hb Hot Hj. unfold index_entry_at.
  replace (table_pos kvs b + j * END_TABLE_ENTRY_SIZE <? MAIN_TABLE_SIZE_BYTES) with false
    by (symmetry; apply Z.ltb_ge; unfold table_pos, END_TABLE_ENTRY_SIZE; lia).
  rewrite (layout_split_table kvs b t (Z.to_nat j) Hb Hot) by lia.
  rewrite slice_mid.
  - rewrite bind_ok. unfold encode_entry, slot_at.
    rewrite get_put_u32_le_mod, skipn_put_u32_le, get_put_u32_le_single. reflexivity.
  - rewrite !length_app, header_length, encode_entries_length, length_firstn.
    unfold table_pos, END_TABLE_ENTRY_SIZE, MAIN_TABLE_SIZE_BYTES. lia.
  - reflexivity.
Qed.

Lemma records_app pre post : records (pre ++ post) = records pre ++ records post.
Proof. induction pre as [|[k v] pre IH]; cbn; [reflexivity | now rewrite IH, app_assoc]. Qed.

Lemma in_entries_from kvs : forall p e, In e (entries_from p kvs) ->
  exists pre k v post, kvs = pre ++ (k, v) :: post /\
    e = mkIndexEntry (cdb_hash k) (as_u32 (p + Z.of_nat (length (records pre)))).
Proof.
  induction kvs as [|[k v] kvs IH]; intros p e Hin; [destruct Hin|].
  cbn [entries_from] in Hin. destruct Hin as [<- | Hin].
  - exists [], k, v, kvs. split; [reflexivity|]. cbn. f_equal. f_equal. lia.
  - destruct (IH _ _ Hin) as (pre & k' & v' & post & -> & ->).
    exists ((k, v) :: pre), k', v', post. split; [reflexivity|].
    cbn [records]. rewrite length_app, Nat2Z.inj_add, Z.add_assoc. reflexivity.
Qed.

Lemma record_bytes_length k v :
  length (record_bytes k v) = (8 + length k + length v)%nat.
Proof. unfold record_bytes. rewrite !length_app, !put_u32_le_length. lia. Qed.

Lemma records_length kvs :
  length (records kvs) = fold_right (fun kv acc => (8 + length (fst kv) + length (snd kv) + acc)%nat) 0%nat kvs.
Proof. induction kvs as [|[k v] kvs IH]; cbn [records fold_right]; [reflexivity|]. rewrite length_app, record_bytes_length, IH. reflexivity. Qed.

Lemma get_kv_ref_layout kvs pre k v post h :
  cdb_size kvs < u32_modulus -> kvs = pre ++ (k, v) :: post ->
  get_kv_ref (layout kvs)
    (mkIndexEntry h (as_u32 (MAIN_TABLE_SIZE_BYTES + Z.of_nat (length (records pre)))))
  = Ok (mkKVRef k v).
Proof.
  intros Hs Hkvs.
  assert (Hrec : length (records kvs) = (length (records pre) + (8 + length k + length v) + length (records post))%nat).
  { rewrite Hkvs, records_app. cbn [records]. rewrite !length_app, record_bytes_length. lia. }
  assert (Hsz := layout_length kvs Hs). unfold cdb_size in Hs.
  set (hdr := concat (map encode_bucket
            (buckets_from (MAIN_TABLE_SIZE_BYTES + Z.of_nat (length (records kvs))) (final_index kvs)))).
  assert (Hhdr : length hdr = 2048%nat) by apply header_length.
  set (tb := tables_bytes (final_index kvs)).
  assert (E : layout kvs = (hdr ++ records pre) ++ (put_u32_le (as_u32 (Z.of_nat (length k)))
                 ++ put_u32_le (as_u32 (Z.of_nat (length v)))) ++ k ++ v ++ records post ++ tb).
  { unfold layout. fold hdr tb. rewrite Hkvs, records_app. cbn [records].
    unfold record_bytes. rewrite <- !app_assoc. reflexivity. }
  assert (Hptr : as_u32 (MAIN_TABLE_SIZE_BYTES + Z.of_nat (length (records pre)))
                 = Z.of_nat (length (hdr ++ records pre))).
  { unfold as_u32. rewrite length_app, Hhdr. rewrite Z.mod_small; unfold MAIN_TABLE_SIZE_BYTES, MAIN_TABLE_SIZE, u32_modulus in *; lia. }
  unfold get_kv_ref. cbn [ie_ptr]. rewrite Hptr, E.
  rewrite slice_mid by (rewrite ?length_app, ?put_u32_le_length; unfold INDEX_ENTRY_SIZE; lia).
  rewrite bind_ok. rewrite firstn_put_u32_le, skipn_put_u32_le, !get_put_u32_le_single, !as_u32_idem.
  unfold as_u32. rewrite !Z.mod_small by (unfold u32_modulus, MAIN_TABLE_SIZE_BYTES, MAIN_TABLE_SIZE in *; lia).
  rewrite app_assoc, slice_mid.
  2:{ rewrite !length_app, !put_u32_le_length. unfold INDEX_ENTRY_SIZE. lia. }
  2:{ reflexivity. }
  rewrite bind_ok. rewrite app_assoc, slice_mid.
  2:{ rewrite !length_app, !put_u32_le_length. unfold INDEX_ENTRY_SIZE. lia. }
  2:{ reflexivity. }
  reflexivity.
Qed.

(** ** The probe loop of [Reader::get] over a secondary table *)

Definition found_result (buf v : list Z) : get_result :=
  let '(buf', n) := copy_slice buf v in (Some n, buf').

Section Probe.

Variables (data key buf : list Z) (hash : Z) (bucket : Bucket) (slot0 : Z).
Variable t : list IndexEntry.

Hypothesis H_len : Z.of_nat (length t) = b_num_ents bucket.
Hypothesis H_pos : 0 < b_num_ents bucket.
Hypothesis H_small : 2 * b_num_ents bucket <= u32_modulus.
Hypothesis H_slot : 0 <= slot0 < b_num_ents bucket.
Hypothesis H_ent : forall j, 0 <= j < b_num_ents bucket ->
  index_entry_at data (b_ptr bucket + j * END_TABLE_ENTRY_SIZE) = Ok (slot_at t j).

(** The slot probed at step [d]. *)
Definition probe (d : Z) : IndexEntry := slot_at t ((slot0 + d) mod b_num_ents bucket).

Lemma get_loop_step fuel x : 0 <= x < b_num_ents bucket ->
  get_loop data key buf hash bucket slot0 (S fuel) x =
    if ie_ptr (probe x) =? 0 then Ok (None, buf)
    else if ie_hash (probe x) =? hash then
      kv <- get_kv_ref data (probe x) ;;
      if list_Z_eqb (kv_k kv) key then Ok (found_result buf (kv_v kv))
      else get_loop data key buf hash bucket slot0 fuel (x + 1)
    else get_loop data key buf hash bucket slot0 fuel (x + 1).
Proof.
  intros Hx. cbn [get_loop]. unfold add_u32.
  replace (x + slot0 <? u32_modulus) with true by (symmetry; apply Z.ltb_lt; lia).
  rewrite bind_ok. unfold entry_n_pos, assert_.
  pose proof (Z.mod_pos_bound (x + slot0) (b_num_ents bucket) H_pos) as Hm.
  replace ((x + slot0) mod b_num_ents bucket <? b_num_ents bucket) with true
    by (symmetry; apply Z.ltb_lt; lia).
  rewrite !bind_ok, H_ent by lia. rewrite bind_ok. unfold probe.
  rewrite (Z.add_comm slot0 x). reflexivity.
Qed.

Lemma get_loop_not_found :
  (forall d, 0 <= d < b_num_ents bucket -> occupied (probe d) = true ->
     ie_hash (probe d) = hash ->
     exists kv, get_kv_ref data (probe d) = Ok kv /\ list_Z_eqb (kv_k kv) key = false) ->
  forall fuel x, 0 <= x -> x + Z.of_nat fuel = b_num_ents bucket ->
  get_loop data key buf hash bucket slot0 fuel x = Ok (None, buf).
Proof.
  intros Hno fuel. induction fuel as [|fuel IH]; intros x Hx Hf; [reflexivity|].
  rewrite get_loop_step by lia.
  destruct (ie_ptr (probe x) =? 0) eqn:Hp; [reflexivity|].
  destruct (ie_hash (probe x) =? hash) eqn:Hh; [|apply IH; lia].
  apply Z.eqb_eq in Hh.
  destruct (Hno x ltac:(lia) ltac:(unfold occupied; now rewrite Hp) Hh) as (kv & Hkv & Hk).
  rewrite Hkv, bind_ok, Hk. apply IH; lia.
Qed.

(** The entries met before the match may be other keys, or the same key
    with the same value. *)
Lemma get_loop_found v d :
  0 <= d < b_num_ents bucket ->
  occupied (probe d) = true -> ie_hash (probe d) = hash ->
  (exists kv, get_kv_ref data (probe d) = Ok kv /\ list_Z_eqb (kv_k kv) key = true /\ kv_v kv = v) ->
  (forall d', 0 <= d' < d -> occupied (probe d') = true /\
     (ie_hash (probe d') <> hash \/
      exists kv, get_kv_ref data (probe d') = Ok kv /\
                 (list_Z_eqb (kv_k kv) key = false \/ kv_v kv = v))) ->
  get_loop data key buf hash bucket slot0 (Z.to_nat (b_num_ents bucket)) 0
  = Ok (found_result buf v).
Proof.
  intros Hd Hocc Hh Hkv Hbefore.
  assert (G : forall fuel x, 0 <= x <= d -> x + Z.of_nat fuel = b_num_ents bucket ->
            get_loop data key buf hash bucket slot0 fuel x = Ok (found_result buf v)).
  { intros fuel. induction fuel as [|fuel IH]; intros x Hx Hf; [lia|].
    rewrite get_loop_step by lia.
    destruct (Z.eq_dec x d) as [-> | Hne].
    - unfold occupied in Hocc. destruct (ie_ptr (probe d) =? 0); [discriminate|].
      rewrite Hh, Z.eqb_refl. destruct Hkv as (kv & -> & Hk & <-). now rewrite bind_ok, Hk.
    - destruct (Hbefore x ltac:(lia)) as [Ho Hor]. unfold occupied in Ho.
      destruct (ie_ptr (probe x) =? 0); [discriminate|].
      destruct (ie_hash (probe x) =? hash) eqn:Hhx; [|apply IH; lia].
      apply Z.eqb_eq in Hhx. destruct Hor as [Hn | (kv & Hk & Hor)]; [contradiction|].
      rewrite Hk, bind_ok. destruct (list_Z_eqb (kv_k kv) key) eqn:Heq.
      + destruct Hor as [Hf' | <-]; [discriminate | reflexivity].
      + apply IH; lia. }
  apply G; lia.
Qed.

(** Without distinct keys: the loop returns the value of the first entry
    of the key on the probe path. *)
Lemma get_loop_first_match d :
  0 <= d < b_num_ents bucket ->
  occupied (probe d) = true -> ie_hash (probe d) = hash ->
  (exists kv, get_kv_ref data (probe d) = Ok kv /\ list_Z_eqb (kv_k kv) key = true) ->
  (forall d', 0 <= d' < d -> occupied (probe d') = true /\
     (ie_hash (probe d') <> hash \/ exists kv, get_kv_ref data (probe d') = Ok kv)) ->
  exists d' kv, 0 <= d' <= d /\ get_kv_ref data (probe d') = Ok kv /\
    list_Z_eqb (kv_k kv) key = true /\
    get_loop data key buf hash bucket slot0 (Z.to_nat (b_num_ents bucket)) 0
    = Ok (found_result buf (kv_v kv)).
Proof.
  intros Hd Hocc Hh Hkv Hbefore.
  assert (G : forall fuel x, 0 <= x <= d -> x + Z.of_nat fuel = b_num_ents bucket ->
            exists d' kv, x <= d' <= d /\ get_kv_ref data (probe d') = Ok kv /\
              list_Z_eqb (kv_k kv) key = true /\
              get_loop data key buf hash bucket slot0 fuel x = Ok (found_result buf (kv_v kv))).
  { intros fuel. induction fuel as [|fuel IH]; intros x Hx Hf; [lia|].
    rewrite get_loop_step by lia.
    destruct (Z.eq_dec x d) as [-> | Hne].
    - unfold occupied in Hocc. destruct (ie_ptr (probe d) =? 0); [discriminate|].
      rewrite Hh, Z.eqb_refl. destruct Hkv as (kv & Hk & Heq).
      exists d, kv. rewrite Hk, bind_ok, Heq. repeat split; auto; lia.
    - destruct (Hbefore x ltac:(lia)) as [Ho Hor]. unfold occupied in Ho.
      destruct (ie_ptr (probe x) =? 0); [discriminate|].
      destruct (ie_hash (probe x) =? hash) eqn:Hhx.
      2:{ destruct (IH (x + 1) ltac:(lia) ltac:(lia)) as (d' & kv & ? & ? & ? & ?).
          exists d', kv. repeat split; auto; lia. }
      apply Z.eqb_eq in Hhx. destruct Hor as [Hn | (kv & Hk)]; [contradiction|].
      rewrite Hk, bind_ok. destruct (list_Z_eqb (kv_k kv) key) eqn:Heq.
      + exists x, kv. repeat split; auto; lia.
      + destruct (IH (x + 1) ltac:(lia) ltac:(lia)) as (d' & kv' & ? & ? & ? & ?).
        exists d', kv'. repeat split; auto; lia. }
  destruct (G (Z.to_nat (b_num_ents bucket)) 0 ltac:(lia) ltac:(lia)) as (d' & kv & ? & ? & ? & ?).
  exists d', kv. repeat split; auto; lia.
Qed.

End Probe.

(** ** Hash values are [u32] values *)

Lemma lxor_lt_pow2 a b k : 0 <= k -> 0 <= a < 2 ^ k -> 0 <= b < 2 ^ k -> 0 <= Z.lxor a b < 2 ^ k.
Proof.
  intros Hk Ha Hb. assert (Hnn : 0 <= Z.lxor a b) by (apply Z.lxor_nonneg; split; lia).
  split; [exact Hnn|].
  destruct (Z.eq_dec (Z.lxor a b) 0) as [-> | Hnz]; [lia|].
  assert (Hpos : 0 < Z.lxor a b) by lia.
  apply (proj2 (Z.log2_lt_pow2 _ k Hpos)).
  pose proof (Z.log2_lxor a b ltac:(lia) ltac:(lia)) as L.
  assert (Hk0 : 0 < k).
  { destruct (Z.eq_dec k 0) as [-> | ?]; [|lia]. cbn in Ha, Hb.
    assert (a = 0) as -> by lia. assert (b = 0) as -> by lia. contradiction. }
  assert (La : Z.log2 a < k) by (destruct (Z.eq_dec a 0) as [-> | ?];
    [cbn; lia | apply (proj1 (Z.log2_lt_pow2 a k ltac:(lia))); lia]).
  assert (Lb : Z.log2 b < k) by (destruct (Z.eq_dec b 0) as [-> | ?];
    [cbn; lia | apply (proj1 (Z.log2_lt_pow2 b k ltac:(lia))); lia]).
  lia.
Qed.

Lemma hash_step_range h b : is_byte b -> 0 <= hash_step h b < u32_modulus.
Proof.
  intros Hb. unfold hash_step, wrapping_add, as_u32, u32_modulus, is_byte in *.
  apply lxor_lt_pow2; [lia | apply Z.mod_pos_bound; lia | lia].
Qed.

Lemma cdb_hash_range bytes : Forall is_byte bytes -> 0 <= cdb_hash bytes < u32_modulus.
Proof.
  unfold cdb_hash. assert (Hs : 0 <= STARTING_HASH < u32_modulus) by (cbv; split; congruence).
  revert Hs. generalize STARTING_HASH.
  induction bytes as [|b bytes IH]; intros h Hh Hall; [exact Hh|].
  inversion Hall; subst. cbn [fold_left]. apply IH; [now apply hash_step_range | assumption].
Qed.

Lemma list_Z_eqb_spec a b : list_Z_eqb a b = true <-> a = b.
Proof.
  revert b. induction a as [|x a IH]; intros [|y b]; cbn; try (split; congruence).
  rewrite andb_true_iff, Z.eqb_eq, IH. split; [intros [-> ->]; reflexivity | intros H; injection H; auto].
Qed.

(** ** The entries of a finalised file *)

(** The stored keys are byte strings. *)
Definition keys_bytes (kvs : list (list Z * list Z)) : Prop :=
  Forall (fun kv => Forall is_byte (fst kv)) kvs.

Lemma entries_from_in pre k v post : forall p,
  In (mkIndexEntry (cdb_hash k) (as_u32 (p + Z.of_nat (length (records pre)))))
     (entries_from p (pre ++ (k, v) :: post)).
Proof.
  induction pre as [|[k0 v0] pre IH]; intros p; cbn [app entries_from records].
  - left. f_equal. f_equal. cbn. lia.
  - right. specialize (IH (p + Z.of_nat (length (record_bytes k0 v0)))).
    rewrite length_app, Nat2Z.inj_add, Z.add_assoc. exact IH.
Qed.

Lemma records_prefix_bound kvs pre k v post :
  kvs = pre ++ (k, v) :: post ->
  (length (records pre) + 8 + length k + length v <= length (records kvs))%nat.
Proof. intros ->. rewrite records_app. cbn [records]. rewrite !length_app, record_bytes_length. lia. Qed.

(** An entry of [entries_from MAIN_TABLE_SIZE_BYTES kvs], when the file fits
    in [u32] offsets. *)
Lemma entry_decoded kvs e :
  cdb_size kvs < u32_modulus -> In e (entries_from MAIN_TABLE_SIZE_BYTES kvs) ->
  exists pre k v post, kvs = pre ++ (k, v) :: post /\
    e = mkIndexEntry (cdb_hash k) (MAIN_TABLE_SIZE_BYTES + Z.of_nat (length (records pre))) /\
    as_u32 (MAIN_TABLE_SIZE_BYTES + Z.of_nat (length (records pre)))
      = MAIN_TABLE_SIZE_BYTES + Z.of_nat (length (records pre)).
Proof.
  intros Hs Hin. destruct (in_entries_from _ _ _ Hin) as (pre & k & v & post & Hk & ->).
  pose proof (records_prefix_bound _ _ _ _ _ Hk).
  assert (E : as_u32 (MAIN_TABLE_SIZE_BYTES + Z.of_nat (length (records pre)))
              = MAIN_TABLE_SIZE_BYTES + Z.of_nat (length (records pre)))
    by (unfold as_u32; apply Z.mod_small; unfold cdb_size, MAIN_TABLE_SIZE_BYTES, MAIN_TABLE_SIZE, u32_modulus in *; lia).
  exists pre, k, v, post. rewrite E. auto.
Qed.

Lemma in_bucket_list es b e : In e (bucket_list es b) -> e = ie_default \/ In e es.
Proof. unfold bucket_list. intros [<- | H]; [now left | right; now apply filter_In in H]. Qed.

Lemma occupied_slot kvs b t n j :
  cdb_size kvs < u32_modulus ->
  table_inv t n (bucket_list (entries_from MAIN_TABLE_SIZE_BYTES kvs) b) -> 0 <= j ->
  occupied (slot_at t j) = true ->
  exists pre k v post, kvs = pre ++ (k, v) :: post /\
    slot_at t j = mkIndexEntry (cdb_hash k) (MAIN_TABLE_SIZE_BYTES + Z.of_nat (length (records pre))).
Proof.
  intros Hs Hinv Hj Hocc.
  assert (Hin : In (slot_at t j) (entries_from MAIN_TABLE_SIZE_BYTES kvs)).
  { destruct (ti_all _ _ _ Hinv j Hj) as [Hd | Hd].
    - rewrite Hd in Hocc. discriminate.
    - destruct (in_bucket_list _ _ _ Hd) as [Hd' | Hd']; [rewrite Hd' in Hocc; discriminate | exact Hd']. }
  destruct (entry_decoded kvs _ Hs Hin) as (pre & k & v & post & Hk & He & _).
  exists pre, k, v, post. auto.
Qed.

Lemma slot_normal kvs b t n j :
  cdb_size kvs < u32_modulus -> keys_bytes kvs ->
  table_inv t n (bucket_list (entries_from MAIN_TABLE_SIZE_BYTES kvs) b) -> 0 <= j ->
  mkIndexEntry (ie_hash (slot_at t j) mod u32_modulus) (ie_ptr (slot_at t j) mod u32_modulus)
  = slot_at t j.
Proof.
  intros Hs Hkb Hinv Hj.
  destruct (occupied (slot_at t j)) eqn:Hocc.
  - destruct (occupied_slot kvs b t n j Hs Hinv Hj Hocc) as (pre & k & v & post & Hk & ->).
    cbn [ie_hash ie_ptr].
    assert (Hkk : Forall is_byte k).
    { unfold keys_bytes in Hkb. rewrite Forall_forall in Hkb.
      apply (Hkb (k, v)). rewrite Hk. apply in_or_app. right. now left. }
    pose proof (cdb_hash_range k Hkk).
    pose proof (records_prefix_bound _ _ _ _ _ Hk).
    rewrite !Z.mod_small; [reflexivity | | ];
      unfold cdb_size, MAIN_TABLE_SIZE_BYTES, MAIN_TABLE_SIZE, u32_modulus in *; lia.
  - unfold occupied in Hocc. apply negb_false_iff, Z.eqb_eq in Hocc.
    destruct (ti_all _ _ _ Hinv j Hj) as [Hd | Hd]; [rewrite Hd; reflexivity|].
    destruct (in_bucket_list _ _ _ Hd) as [Hd' | Hd']; [rewrite Hd'; reflexivity|].
    destruct (entry_decoded kvs _ Hs Hd') as (pre & k & v & post & _ & He & _).
    rewrite He in Hocc. cbn [ie_ptr] in Hocc. unfold MAIN_TABLE_SIZE_BYTES in Hocc. lia.
Qed.

(** [Reader::get] on a finalised file, reduced to the probe loop over the
    secondary table of the key's bucket. *)
Lemma get_layout_loop kvs key buf :
  cdb_size kvs < u32_modulus -> keys_bytes kvs -> Forall is_byte key ->
  let es := entries_from MAIN_TABLE_SIZE_BYTES kvs in
  let b := table (cdb_hash key) in
  let n := 2 * Z.of_nat (length (bucket_list es b)) in
  exists t, table_inv t n (bucket_list es b) /\ ot (bucket_list es b) = (n, t) /\
    (forall j, 0 <= j < n ->
       index_entry_at (layout kvs) (table_pos kvs b + j * END_TABLE_ENTRY_SIZE) = Ok (slot_at t j)) /\
    get (layout kvs) key buf
    = get_loop (layout kvs) key buf (cdb_hash key) (mkBucket (table_pos kvs b) n)
               (Z.shiftr (cdb_hash key) 8 mod n) (Z.to_nat n) 0.
Proof.
  intros Hs Hkb Hk es b n.
  pose proof (cdb_size_bound kvs Hs) as Hb.
  assert (Hb' : 4 * (1 + Z.of_nat (length es)) <= u32_modulus)
    by (unfold es; now rewrite entries_from_length).
  destruct (ot_bucket es b Hb') as (t & Hot & Hinv).
  pose proof (table_range (cdb_hash key)) as Hbr. fold b in Hbr.
  pose proof (bucket_list_length es b) as Hbl.
  assert (Hnth : nth (Z.to_nat b) (final_index kvs) [] = bucket_list es b)
    by (apply final_index_nth; exact Hbr).
  assert (Hot' : ot (nth (Z.to_nat b) (final_index kvs) [])
                 = (fst (ot (nth (Z.to_nat b) (final_index kvs) [])), t))
    by (rewrite Hnth, Hot; reflexivity).
  pose proof (ti_length _ _ _ Hinv) as Hlt.
  exists t. split; [exact Hinv|]. split; [exact Hot|]. split.
  - intros j Hj. rewrite (index_entry_layout kvs b j t Hs Hbr Hot') by lia.
    f_equal. apply (slot_normal kvs b t n j Hs Hkb Hinv). lia.
  - pose proof (table_pos_bound kvs b 0 t Hs Hbr Hot' ltac:(lia)) as Htp.
    unfold get. fold b. rewrite bucket_at_layout by exact Hbr. rewrite bind_ok.
    fold (table_pos kvs b).
    rewrite Hnth, Hot. cbn [fst b_num_ents].
    assert (E1 : as_u32 (table_pos kvs b) = table_pos kvs b).
    { unfold as_u32. apply Z.mod_small. unfold table_pos, MAIN_TABLE_SIZE_BYTES in *. lia. }
    assert (E2 : 2 * Z.of_nat (length (bucket_list es b)) mod u32_modulus = n).
    { unfold n. apply Z.mod_small. unfold u32_modulus in *. lia. }
    rewrite E1, E2.
    replace (n =? 0) with false by (symmetry; apply Z.eqb_neq; unfold n; lia).
    unfold slot, rem. replace (n =? 0) with false by (symmetry; apply Z.eqb_neq; unfold n; lia).
    reflexivity.
Qed.

Lemma occupied_slot_kv kvs b t n j :
  cdb_size kvs < u32_modulus ->
  table_inv t n (bucket_list (entries_from MAIN_TABLE_SIZE_BYTES kvs) b) -> 0 <= j ->
  occupied (slot_at t j) = true ->
  exists k v, In (k, v) kvs /\ ie_hash (slot_at t j) = cdb_hash k /\
    get_kv_ref (layout kvs) (slot_at t j) = Ok (mkKVRef k v).
Proof.
  intros Hs Hinv Hj Hocc.
  destruct (occupied_slot kvs b t n j Hs Hinv Hj Hocc) as (pre & k & v & post & Hk & He).
  exists k, v. split; [rewrite Hk; apply in_or_app; right; now left|].
  rewrite He. split; [reflexivity|].
  pose proof (records_prefix_bound _ _ _ _ _ Hk).
  rewrite <- (get_kv_ref_layout kvs pre k v post (cdb_hash k) Hs Hk). f_equal. f_equal.
  unfold as_u32. symmetry. apply Z.mod_small.
  unfold cdb_size, MAIN_TABLE_SIZE_BYTES, MAIN_TABLE_SIZE, u32_modulus in *. lia.
Qed.

Lemma nodup_keys_value (kvs : list (list Z * list Z)) k v v' :
  NoDup (map fst kvs) -> In (k, v) kvs -> In (k, v') kvs -> v = v'.
Proof.
  induction kvs as [|[k0 v0] kvs IH]; intros Hnd H1 H2; [destruct H1|].
  inversion Hnd as [|? ? Hnotin Hnd']; subst. cbn [fst] in Hnotin.
  destruct H1 as [E1 | H1]; destruct H2 as [E2 | H2].
  - congruence.
  - injection E1 as -> ->. exfalso. apply Hnotin. apply in_map_iff. now exists (k, v').
  - injection E2 as -> ->. exfalso. apply Hnotin. apply in_map_iff. now exists (k, v).
  - now apply IH.
Qed.

Lemma keys_bytes_in kvs k v : keys_bytes kvs -> In (k, v) kvs -> Forall is_byte k.
Proof. unfold keys_bytes. rewrite Forall_forall. intros H Hin. exact (H (k, v) Hin). Qed.

(** A stored key is found, with its value, when the keys are distinct. *)
Lemma get_layout_found kvs k v buf :
  cdb_size kvs < u32_modulus -> keys_bytes kvs -> NoDup (map fst kvs) -> In (k, v) kvs ->
  get (layout kvs) k buf = Ok (found_result buf v).
Proof.
  intros Hs Hkb Hnd Hin.
  pose proof (keys_bytes_in kvs k v Hkb Hin) as Hk.
  destruct (get_layout_loop kvs k buf Hs Hkb Hk) as (t & Hinv & _ & Hent & ->).
  set (es := entries_from MAIN_TABLE_SIZE_BYTES kvs) in *.
  set (b := table (cdb_hash k)) in *.
  set (n := 2 * Z.of_nat (length (bucket_list es b))) in *.
  pose proof (cdb_size_bound kvs Hs) as Hb.
  pose proof (bucket_list_length es b) as Hbl.
  assert (Hesl : length es = length kvs) by apply entries_from_length.
  destruct (in_split _ _ Hin) as (pre & post & Hsplit).
  pose proof (records_prefix_bound _ _ _ _ _ Hsplit) as Hpre.
  set (e := mkIndexEntry (cdb_hash k) (as_u32 (MAIN_TABLE_SIZE_BYTES + Z.of_nat (length (records pre))))).
  assert (He : In e es).
  { pose proof (entries_from_in pre k v post MAIN_TABLE_SIZE_BYTES) as H.
    rewrite <- Hsplit in H. exact H. }
  assert (Heb : In e (bucket_list es b)).
  { right. apply filter_In. split; [exact He|]. unfold in_bucket, b. cbn [ie_hash]. apply Z.eqb_refl. }
  assert (Hptr : as_u32 (MAIN_TABLE_SIZE_BYTES + Z.of_nat (length (records pre)))
                 = MAIN_TABLE_SIZE_BYTES + Z.of_nat (length (records pre))).
  { unfold as_u32. apply Z.mod_small. unfold cdb_size, MAIN_TABLE_SIZE_BYTES, MAIN_TABLE_SIZE, u32_modulus in *. lia. }
  assert (Hocc : occupied e = true).
  { unfold occupied, e. cbn [ie_ptr]. rewrite Hptr. apply negb_true_iff, Z.eqb_neq.
    unfold MAIN_TABLE_SIZE_BYTES. lia. }
  destruct (ti_reach _ _ _ Hinv e Heb Hocc) as (d & Hd & Hat & Hbefore).
  change (start_of n e) with (Z.shiftr (cdb_hash k) 8 mod n) in Hat, Hbefore.
  pose proof (ti_length _ _ _ Hinv) as Hlt.
  assert (Hn : 0 < n) by (unfold n; lia).
  apply (get_loop_found (layout kvs) k buf (cdb_hash k) (mkBucket (table_pos kvs b) n)
           (Z.shiftr (cdb_hash k) 8 mod n) t) with (d := d); cbn [b_num_ents b_ptr];
    try exact Hlt; try exact Hn; try exact Hent; try exact Hd; try (now apply mod_range);
    try (unfold n, u32_modulus in *; lia).
  - unfold probe. cbn [b_num_ents]. exact (eq_ind_r (fun x => occupied x = true) Hocc Hat).
  - unfold probe. cbn [b_num_ents]. now rewrite Hat.
  - unfold probe. cbn [b_num_ents]. rewrite Hat. exists (mkKVRef k v).
    split; [|split; [apply list_Z_eqb_spec; reflexivity | reflexivity]].
    apply (get_kv_ref_layout kvs pre k v post (cdb_hash k) Hs Hsplit).
  - intros d' Hd'. unfold probe. cbn [b_num_ents].
    pose proof (Hbefore d' Hd') as Ho. split; [exact Ho|].
    assert (Hj : 0 <= (Z.shiftr (cdb_hash k) 8 mod n + d') mod n) by (apply mod_range; lia).
    destruct (occupied_slot_kv kvs b t n _ Hs Hinv Hj Ho) as (k' & v' & Hin' & Hh' & Hkv').
    right. exists (mkKVRef k' v'). split; [exact Hkv'|]. cbn [kv_k kv_v].
    destruct (list_Z_eqb k' k) eqn:Heq; [right | now left].
    apply list_Z_eqb_spec in Heq. subst k'. exact (nodup_keys_value kvs k v' v Hnd Hin' Hin).
Qed.

(** A key that was not stored is not found. *)
Lemma get_layout_not_found kvs k buf :
  cdb_size kvs < u32_modulus -> keys_bytes kvs -> Forall is_byte k -> ~ In k (map fst kvs) ->
  get (layout kvs) k buf = Ok (None, buf).
Proof.
  intros Hs Hkb Hk Hnot.
  destruct (get_layout_loop kvs k buf Hs Hkb Hk) as (t & Hinv & _ & Hent & ->).
  set (es := entries_from MAIN_TABLE_SIZE_BYTES kvs) in *.
  set (b := table (cdb_hash k)) in *.
  set (n := 2 * Z.of_nat (length (bucket_list es b))) in *.
  pose proof (cdb_size_bound kvs Hs) as Hb.
  pose proof (bucket_list_length es b) as Hbl.
  assert (Hesl : length es = length kvs) by apply entries_from_length.
  pose proof (ti_length _ _ _ Hinv) as Hlt.
  assert (Hn : 0 < n) by (unfold n; lia).
  apply (get_loop_not_found (layout kvs) k buf (cdb_hash k) (mkBucket (table_pos kvs b) n)
           (Z.shiftr (cdb_hash k) 8 mod n) t); cbn [b_num_ents b_ptr];
    try exact Hlt; try exact Hn; try exact Hent; try (now apply mod_range);
    try (unfold n, u32_modulus in *; lia).
  intros d Hd Ho _. unfold probe in *. cbn [b_num_ents] in *.
    assert (Hj : 0 <= (Z.shiftr (cdb_hash k) 8 mod n + d) mod n) by (apply mod_range; lia).
    destruct (occupied_slot_kv kvs b t n _ Hs Hinv Hj Ho) as (k' & v' & Hin' & _ & Hkv').
    exists (mkKVRef k' v'). split; [exact Hkv'|]. cbn [kv_k].
    destruct (list_Z_eqb k' k) eqn:Heq; [|reflexivity].
    apply list_Z_eqb_spec in Heq. subst k'. exfalso. apply Hnot. apply in_map_iff. now exists (k, v').
Qed.

(** A stored key is found, with the value of one of its records, also when
    keys repeat. *)
Lemma get_layout_stored kvs k v buf :
  cdb_size kvs < u32_modulus -> keys_bytes kvs -> In (k, v) kvs ->
  exists v', In (k, v') kvs /\ get (layout kvs) k buf = Ok (found_result buf v').
Proof.
  intros Hs Hkb Hin.
  pose proof (keys_bytes_in kvs k v Hkb Hin) as Hk.
  destruct (get_layout_loop kvs k buf Hs Hkb Hk) as (t & Hinv & _ & Hent & ->).
  set (es := entries_from MAIN_TABLE_SIZE_BYTES kvs) in *.
  set (b := table (cdb_hash k)) in *.
  set (n := 2 * Z.of_nat (length (bucket_list es b))) in *.
  pose proof (cdb_size_bound kvs Hs) as Hb.
  pose proof (bucket_list_length es b) as Hbl.
  assert (Hesl : length es = length kvs) by apply entries_from_length.
  destruct (in_split _ _ Hin) as (pre & post & Hsplit).
  pose proof (records_prefix_bound _ _ _ _ _ Hsplit) as Hpre.
  set (e := mkIndexEntry (cdb_hash k) (as_u32 (MAIN_TABLE_SIZE_BYTES + Z.of_nat (length (records pre))))).
  assert (He : In e es).
  { pose proof (entries_from_in pre k v post MAIN_TABLE_SIZE_BYTES) as H.
    rewrite <- Hsplit in H. exact H. }
  assert (Heb : In e (bucket_list es b)).
  { right. apply filter_In. split; [exact He|]. unfold in_bucket, b. cbn [ie_hash]. apply Z.eqb_refl. }
  assert (Hptr : as_u32 (MAIN_TABLE_SIZE_BYTES + Z.of_nat (length (records pre)))
                 = MAIN_TABLE_SIZE_BYTES + Z.of_nat (length (records pre))).
  { unfold as_u32. apply Z.mod_small. unfold cdb_size, MAIN_TABLE_SIZE_BYTES, MAIN_TABLE_SIZE, u32_modulus in *. lia. }
  assert (Hocc : occupied e = true).
  { unfold occupied, e. cbn [ie_ptr]. rewrite Hptr. apply negb_true_iff, Z.eqb_neq.
    unfold MAIN_TABLE_SIZE_BYTES. lia. }
  destruct (ti_reach _ _ _ Hinv e Heb Hocc) as (d & Hd & Hat & Hbefore).
  change (start_of n e) with (Z.shiftr (cdb_hash k) 8 mod n) in Hat, Hbefore.
  pose proof (ti_length _ _ _ Hinv) as Hlt.
  assert (Hn : 0 < n) by (unfold n; lia).
  edestruct (get_loop_first_match (layout kvs) k buf (cdb_hash k) (mkBucket (table_pos kvs b) n)
           (Z.shiftr (cdb_hash k) 8 mod n) t) with (d := d) as (d' & kv & Hd' & Hkv & Heq & Hres);
    cbn [b_num_ents b_ptr] in *;
    try exact Hlt; try exact Hn; try exact Hent; try exact Hd; try (now apply mod_range);
    try (unfold n, u32_modulus in *; lia).
  - unfold probe. cbn [b_num_ents]. exact (eq_ind_r (fun x => occupied x = true) Hocc Hat).
  - unfold probe. cbn [b_num_ents]. now rewrite Hat.
  - unfold probe. cbn [b_num_ents]. rewrite Hat. exists (mkKVRef k v).
    split; [|apply list_Z_eqb_spec; reflexivity].
    apply (get_kv_ref_layout kvs pre k v post (cdb_hash k) Hs Hsplit).
  - intros d0 Hd0. unfold probe. cbn [b_num_ents].
    pose proof (Hbefore d0 Hd0) as Ho. split; [exact Ho|].
    assert (Hj : 0 <= (Z.shiftr (cdb_hash k) 8 mod n + d0) mod n) by (apply mod_range; lia).
    destruct (occupied_slot_kv kvs b t n _ Hs Hinv Hj Ho) as (k' & v' & Hin' & Hh' & Hkv').
    right. now exists (mkKVRef k' v').
  - unfold probe in Hkv. cbn [b_num_ents] in Hkv.
    assert (Hj : 0 <= (Z.shiftr (cdb_hash k) 8 mod n + d') mod n) by (apply mod_range; lia).
    assert (Ho : occupied (slot_at t ((Z.shiftr (cdb_hash k) 8 mod n + d') mod n)) = true).
    { destruct (Z.eq_dec d' d) as [-> | Hne].
      - rewrite Hat. exact Hocc.
      - apply Hbefore. lia. }
    destruct (occupied_slot_kv kvs b t n _ Hs Hinv Hj Ho) as (k' & v' & Hin' & _ & Hkv').
    rewrite Hkv' in Hkv. injection Hkv as <-. cbn [kv_k kv_v] in Heq, Hres.
    apply list_Z_eqb_spec in Heq. subst k'. exists v'. split; [exact Hin' | exact Hres].
Qed.

(** ** [Reader::get] returns no error value *)

Definition no_err {A} (o : outcome A) : Prop := match o with Err _ => False | _ => True end.

Lemma bind_no_err {A B} (m : outcome A) (k : A -> outcome B) :
  no_err m -> (forall a, no_err (k a)) -> no_err (bind m k).
Proof. destruct m; cbn; auto. Qed.

Lemma slice_no_err data a b : no_err (slice data a b).
Proof. unfold slice. destruct (_ && _); exact I. Qed.

Lemma assert_no_err c : no_err (assert_ c).
Proof. unfold assert_. destruct c; exact I. Qed.

Lemma get_kv_ref_no_err data e : no_err (get_kv_ref data e).
Proof.
  unfold get_kv_ref. apply bind_no_err; [apply slice_no_err | intros b].
  apply bind_no_err; [apply slice_no_err | intros k].
  apply bind_no_err; [apply slice_no_err | intros v]. exact I.
Qed.

Lemma get_loop_no_err data key buf hash bucket slot0 fuel : forall x,
  no_err (get_loop data key buf hash bucket slot0 fuel x).
Proof.
  induction fuel as [|fuel IH]; intros x; cbn [get_loop]; [exact I|].
  apply bind_no_err; [unfold add_u32; destruct (_ <? _); exact I | intros s].
  apply bind_no_err; [unfold entry_n_pos; apply bind_no_err; [apply assert_no_err | intros; exact I] | intros p].
  apply bind_no_err.
  { unfold index_entry_at. destruct (_ <? _); [exact I|].
    apply bind_no_err; [apply slice_no_err | intros; exact I]. }
  intros e. destruct (_ =? 0); [exact I|]. destruct (_ =? hash); [|apply IH].
  apply bind_no_err; [apply get_kv_ref_no_err | intros kv].
  destruct (list_Z_eqb _ _); [destruct (copy_slice _ _); exact I | apply IH].
Qed.

Lemma get_no_err data key buf : no_err (get data key buf).
Proof.
  unfold get. apply bind_no_err.
  { unfold bucket_at. apply bind_no_err; [apply assert_no_err | intros _].
    apply bind_no_err; [apply slice_no_err | intros; exact I]. }
  intros bk. destruct (_ =? 0); [exact I|].
  apply bind_no_err; [unfold slot, rem; destruct (_ =? 0); exact I | intros sl].
  apply get_loop_no_err.
Qed.

(** ** What [Reader::get] leaves in the destination buffer *)

Lemma get_loop_result data key buf hash bucket slot0 fuel : forall x r,
  get_loop data key buf hash bucket slot0 fuel x = Ok r ->
  r = (None, buf) \/ exists v, r = found_result buf v.
Proof.
  induction fuel as [|fuel IH]; intros x r; cbn [get_loop].
  - intros H. injection H as <-. now left.
  - destruct (add_u32 x slot0) as [s| |]; cbn [bind]; try discriminate.
    destruct (entry_n_pos bucket _) as [p| |]; cbn [bind]; try discriminate.
    destruct (index_entry_at data p) as [e| |]; cbn [bind]; try discriminate.
    destruct (_ =? 0); [intros H; injection H as <-; now left|].
    destruct (_ =? hash); [|apply IH].
    destruct (get_kv_ref data e) as [kv| |]; cbn [bind]; try discriminate.
    destruct (list_Z_eqb _ _); [|apply IH].
    intros H. right. exists (kv_v kv). unfold found_result.
    destruct (copy_slice buf (kv_v kv)). congruence.
Qed.

Lemma get_result_shape data key buf r :
  get data key buf = Ok r -> r = (None, buf) \/ exists v, r = found_result buf v.
Proof.
  unfold get. destruct (bucket_at data _) as [bk| |]; cbn [bind]; try discriminate.
  destruct (_ =? 0); [intros H; injection H as <-; now left|].
  destruct (slot _ _) as [sl| |]; cbn [bind]; try discriminate.
  apply get_loop_result.
Qed.

Lemma found_result_frame buf v n buf' :
  found_result buf v = (Some n, buf') ->
  n = Z.min (Z.of_nat (length buf)) (Z.of_nat (length v)) /\
  length buf' = length buf /\
  firstn (Z.to_nat n) buf' = firstn (Z.to_nat n) v /\
  skipn (Z.to_nat n) buf' = skipn (Z.to_nat n) buf.
Proof.
  unfold found_result, copy_slice. intros H. injection H as <- <-.
  set (m := Z.to_nat (Z.min _ _)).
  assert (Hm : (m <= length buf /\ m <= length v)%nat) by (unfold m; lia).
  assert (Hf : length (firstn m v) = m) by (rewrite length_firstn; lia).
  split; [reflexivity|]. split; [|split].
  - rewrite length_app, Hf, length_skipn. lia.
  - rewrite firstn_app, Hf, Nat.sub_diag, firstn_O, app_nil_r.
    rewrite firstn_firstn. f_equal. lia.
  - rewrite skipn_app, Hf, Nat.sub_diag, skipn_0.
    rewrite skipn_all2 by lia. reflexivity.
Qed.

Lemma found_result_fits buf v :
  (length v <= length buf)%nat ->
  found_result buf v = (Some (Z.of_nat (length v)), v ++ skipn (length v) buf).
Proof.
  intros H. unfold found_result, copy_slice.
  rewrite Z.min_r by lia. rewrite Nat2Z.id, firstn_all. reflexivity.
Qed.

Lemma found_result_truncates buf v :
  (length buf < length v)%nat ->
  found_result buf v = (Some (Z.of_nat (length buf)), firstn (length buf) v).
Proof.
  intros H. unfold found_result, copy_slice.
  rewrite Z.min_l by lia. rewrite Nat2Z.id, skipn_all, app_nil_r. reflexivity.
Qed.

(** ** Reading a secondary table back *)

(** The [m] slots stored from [pos] on, read with [Reader::index_entry_at]. *)
Fixpoint read_entries (data : list Z) (pos : Z) (m : nat) : outcome (list IndexEntry) :=
  match m with
  | O => Ok []
  | S m' =>
      e <- index_entry_at data pos ;;
      rest <- read_entries data (pos + END_TABLE_ENTRY_SIZE) m' ;;
      Ok (e :: rest)
  end.

(** The number of real entries (slots with [ptr != 0]) of the secondary
    table a primary-table entry points to. *)
Definition real_entries (data : list Z) (bk : Bucket) : outcome nat :=
  es <- read_entries data (b_ptr bk) (Z.to_nat (b_num_ents bk)) ;;
  Ok (length (filter occupied es)).

Definition norm_entry (e : IndexEntry) : IndexEntry :=
  mkIndexEntry (ie_hash e mod u32_modulus) (ie_ptr e mod u32_modulus).

Lemma read_entries_layout kvs b t m : forall j0,
  cdb_size kvs < u32_modulus -> 0 <= b < 256 ->
  ot (nth (Z.to_nat b) (final_index kvs) []) = (fst (ot (nth (Z.to_nat b) (final_index kvs) [])), t) ->
  (j0 + m <= length t)%nat ->
  read_entries (layout kvs) (table_pos kvs b + Z.of_nat j0 * END_TABLE_ENTRY_SIZE) m
  = Ok (map norm_entry (firstn m (skipn j0 t))).
Proof.
  induction m as [|m IH]; intros j0 Hs Hb Hot Hj; [reflexivity|].
  cbn [read_entries]. rewrite (index_entry_layout kvs b (Z.of_nat j0) t Hs Hb Hot) by lia.
  rewrite bind_ok.
  replace (table_pos kvs b + Z.of_nat j0 * END_TABLE_ENTRY_SIZE + END_TABLE_ENTRY_SIZE)
    with (table_pos kvs b + Z.of_nat (S j0) * END_TABLE_ENTRY_SIZE) by lia.
  rewrite IH by (auto; lia). rewrite bind_ok.
  rewrite (skipn_nth t j0 ie_default) by lia. cbn [firstn map].
  unfold slot_at, norm_entry. rewrite Nat2Z.id. reflexivity.
Qed.

Lemma slot_ptr_range kvs b t n j :
  cdb_size kvs < u32_modulus ->
  table_inv t n (bucket_list (entries_from MAIN_TABLE_SIZE_BYTES kvs) b) -> 0 <= j ->
  0 <= ie_ptr (slot_at t j) < u32_modulus.
Proof.
  intros Hs Hinv Hj.
  destruct (occupied (slot_at t j)) eqn:Hocc.
  - destruct (occupied_slot kvs b t n j Hs Hinv Hj Hocc) as (pre & k & v & post & Hk & ->).
    cbn [ie_ptr]. pose proof (records_prefix_bound _ _ _ _ _ Hk).
    unfold cdb_size, MAIN_TABLE_SIZE_BYTES, MAIN_TABLE_SIZE, u32_modulus in *. lia.
  - unfold occupied in Hocc. apply negb_false_iff, Z.eqb_eq in Hocc. rewrite Hocc.
    unfold u32_modulus. lia.
Qed.

Lemma occupied_norm e : 0 <= ie_ptr e < u32_modulus -> occupied (norm_entry e) = occupied e.
Proof. intros H. unfold occupied, norm_entry. cbn [ie_ptr]. now rewrite Z.mod_small. Qed.

Lemma filter_occupied_norm l :
  Forall (fun e => 0 <= ie_ptr e < u32_modulus) l ->
  length (filter occupied (map norm_entry l)) = length (filter occupied l).
Proof.
  induction l as [|e l IH]; intros Hall; [reflexivity|].
  inversion Hall; subst. cbn [map filter]. rewrite occupied_norm by assumption.
  destruct (occupied e); cbn [length]; rewrite IH; auto.
Qed.

Lemma entries_from_occupied kvs :
  cdb_size kvs < u32_modulus ->
  forall e, In e (entries_from MAIN_TABLE_SIZE_BYTES kvs) -> occupied e = true.
Proof.
  intros Hs e Hin. destruct (entry_decoded kvs e Hs Hin) as (pre & k & v & post & _ & -> & _).
  unfold occupied, MAIN_TABLE_SIZE_BYTES. cbn [ie_ptr]. apply negb_true_iff, Z.eqb_neq. lia.
Qed.

Lemma filter_all_true {A} (f : A -> bool) l : (forall x, In x l -> f x = true) -> filter f l = l.
Proof.
  induction l as [|x l IH]; intros H; [reflexivity|]. cbn [filter].
  rewrite H by now left. f_equal. apply IH. intros; apply H; now right.
Qed.

Lemma bucket_count kvs b :
  length (filter (in_bucket b) (entries_from MAIN_TABLE_SIZE_BYTES kvs))
  = length (filter (fun kv => table (cdb_hash (fst kv)) =? b) kvs).
Proof.
  generalize MAIN_TABLE_SIZE_BYTES.
  induction kvs as [|[k v] kvs IH]; intros p; [reflexivity|].
  cbn [entries_from filter fst]. unfold in_bucket at 1. cbn [ie_hash].
  destruct (table (cdb_hash k) =? b); cbn [length]; rewrite IH; reflexivity.
Qed.

Lemma occupied_bucket_list kvs b :
  cdb_size kvs < u32_modulus ->
  length (filter occupied (bucket_list (entries_from MAIN_TABLE_SIZE_BYTES kvs) b))
  = length (filter (fun kv => table (cdb_hash (fst kv)) =? b) kvs).
Proof.
  intros Hs. unfold bucket_list. cbn [filter]. unfold occupied at 1. cbn [ie_default ie_ptr negb Z.eqb].
  rewrite filter_all_true; [apply bucket_count|].
  intros e Hin. apply filter_In in Hin. apply (entries_from_occupied kvs Hs), Hin.
Qed.

(** The number of pairs of [kvs] whose key falls into bucket [b]. *)
Definition bucket_size (kvs : list (list Z * list Z)) (b : Z) : nat :=
  length (filter (fun kv => table (cdb_hash (fst kv)) =? b) kvs).

Lemma bucket_list_size kvs b :
  length (bucket_list (entries_from MAIN_TABLE_SIZE_BYTES kvs) b) = S (bucket_size kvs b).
Proof. unfold bucket_list, bucket_size. cbn [length]. now rewrite bucket_count. Qed.

(** The primary-table entry and the secondary table of bucket [b]. *)
Lemma bucket_layout kvs b :
  cdb_size kvs < u32_modulus -> 0 <= b < 256 ->
  let n := 2 * (Z.of_nat (bucket_size kvs b) + 1) in
  exists t, table_inv t n (bucket_list (entries_from MAIN_TABLE_SIZE_BYTES kvs) b) /\
    bucket_at (layout kvs) b = Ok (mkBucket (table_pos kvs b) n) /\
    read_entries (layout kvs) (table_pos kvs b) (Z.to_nat n) = Ok (map norm_entry t) /\
    MAIN_TABLE_SIZE_BYTES <= table_pos kvs b.
Proof.
  intros Hs Hb n.
  set (es := entries_from MAIN_TABLE_SIZE_BYTES kvs).
  pose proof (cdb_size_bound kvs Hs) as Hbd.
  assert (Hb' : 4 * (1 + Z.of_nat (length es)) <= u32_modulus)
    by (unfold es; now rewrite entries_from_length).
  destruct (ot_bucket es b Hb') as (t & Hot & Hinv).
  pose proof (bucket_list_size kvs b) as Hsz. fold es in Hsz.
  pose proof (bucket_list_length es b) as Hbl.
  assert (Hn : 2 * Z.of_nat (length (bucket_list es b)) = n) by (unfold n; rewrite Hsz; lia).
  rewrite Hn in Hot, Hinv.
  assert (Hnth : nth (Z.to_nat b) (final_index kvs) [] = bucket_list es b)
    by (apply final_index_nth; exact Hb).
  assert (Hot' : ot (nth (Z.to_nat b) (final_index kvs) [])
                 = (fst (ot (nth (Z.to_nat b) (final_index kvs) [])), t))
    by (rewrite Hnth, Hot; reflexivity).
  pose proof (ti_length _ _ _ Hinv) as Hlt.
  pose proof (table_pos_bound kvs b 0 t Hs Hb Hot' ltac:(lia)) as Htp.
  exists t. split; [exact Hinv|]. split; [|split].
  - rewrite bucket_at_layout by exact Hb. fold (table_pos kvs b). rewrite Hnth, Hot. cbn [fst].
    f_equal. f_equal.
    + unfold as_u32. apply Z.mod_small. unfold table_pos, MAIN_TABLE_SIZE_BYTES in *. lia.
    + apply Z.mod_small. unfold es in *. unfold u32_modulus in *. lia.
  - pose proof (read_entries_layout kvs b t (Z.to_nat n) 0 Hs Hb Hot' ltac:(lia)) as R.
    rewrite Z.mul_0_l, Z.add_0_r in R. rewrite R. cbn [skipn].
    rewrite firstn_all2 by lia. reflexivity.
  - unfold table_pos, MAIN_TABLE_SIZE_BYTES. lia.
Qed.

Lemma real_entries_layout kvs b :
  cdb_size kvs < u32_modulus -> 0 <= b < 256 ->
  real_entries (layout kvs) (mkBucket (table_pos kvs b) (2 * (Z.of_nat (bucket_size kvs b) + 1)))
  = Ok (bucket_size kvs b).
Proof.
  intros Hs Hb. destruct (bucket_layout kvs b Hs Hb) as (t & Hinv & _ & Hread & _).
  unfold real_entries. cbn [b_ptr b_num_ents]. rewrite Hread, bind_ok. f_equal.
  rewrite filter_occupied_norm.
  - change (length (filter occupied t)) with (nocc t). rewrite (ti_count _ _ _ Hinv).
    apply occupied_bucket_list; exact Hs.
  - apply Forall_forall. intros e Hin.
    destruct (In_nth t e ie_default Hin) as (j & Hj & <-).
    replace (nth j t ie_default) with (slot_at t (Z.of_nat j)) by (unfold slot_at; now rewrite Nat2Z.id).
    apply (slot_ptr_range kvs b t _ _ Hs Hinv). lia.
Qed.

Lemma empty_bucket_table kvs b t n :
  table_inv t n (bucket_list (entries_from MAIN_TABLE_SIZE_BYTES kvs) b) ->
  bucket_size kvs b = 0%nat -> Z.of_nat (length t) = 2 ->
  t = [ie_default; ie_default].
Proof.
  intros Hinv H0 Hl.
  assert (Hbl : bucket_list (entries_from MAIN_TABLE_SIZE_BYTES kvs) b = [ie_default]).
  { pose proof (bucket_list_size kvs b) as Hs. rewrite H0 in Hs.
    unfold bucket_list in *. cbn [length] in Hs. injection Hs as Hs.
    apply length_zero_iff_nil in Hs. now rewrite Hs. }
  rewrite Hbl in Hinv.
  assert (Hd : forall j, 0 <= j -> slot_at t j = ie_default).
  { intros j Hj. destruct (ti_all _ _ _ Hinv j Hj) as [H | [H | []]]; auto. }
  destruct t as [|x [|y [|z t]]]; cbn [length] in Hl; try lia.
  pose proof (Hd 0 ltac:(lia)) as H1. pose proof (Hd 1 ltac:(lia)) as H2.
  change (slot_at [x; y] 0) with x in H1. change (slot_at [x; y] 1) with y in H2. now rewrite H1, H2.
Qed.

(** ** The hash as the spec writes it *)

(** [H <- ((H << 5) + H) XOR b] modulo [2^32], from [5381]. *)
Definition spec_hash (bytes : list Z) : Z :=
  fold_left (fun h b => Z.lxor (Z.shiftl h 5 + h) b mod u32_modulus) bytes STARTING_HASH.

Lemma lxor_mod_pow2 a b : 0 <= b < u32_modulus ->
  Z.lxor (a mod u32_modulus) b = Z.lxor a b mod u32_modulus.
Proof.
  intros Hb. unfold u32_modulus in *. apply Z.bits_inj'. intros i Hi.
  rewrite Z.lxor_spec. destruct (Z.lt_ge_cases i 32) as [Hlt | Hge].
  { rewrite !Z.mod_pow2_bits_low by lia. now rewrite Z.lxor_spec. }
  rewrite !Z.mod_pow2_bits_high by lia. rewrite xorb_false_l.
  destruct (Z.eq_dec b 0) as [-> | Hnz]; [apply Z.testbit_0_l|].
  apply Z.bits_above_log2; [lia|].
  assert (Z.log2 b < 32) by (apply (proj1 (Z.log2_lt_pow2 b 32 ltac:(lia))); lia). lia.
Qed.

Lemma hash_step_spec h b : 0 <= h < u32_modulus -> is_byte b ->
  hash_step h b = Z.lxor (Z.shiftl h 5 + h) b mod u32_modulus.
Proof.
  intros Hh Hb. unfold hash_step, wrapping_add, wrapping_shl, as_u32.
  change (Z.land 5 31) with 5.
  rewrite <- lxor_mod_pow2 by (unfold is_byte, u32_modulus in *; lia). f_equal.
  rewrite Z.add_mod_idemp_l by (unfold u32_modulus; lia). reflexivity.
Qed.

Lemma cdb_hash_spec_hash bytes : Forall is_byte bytes -> cdb_hash bytes = spec_hash bytes.
Proof.
  unfold cdb_hash, spec_hash. assert (Hs : 0 <= STARTING_HASH < u32_modulus) by (cbv; split; congruence).
  revert Hs. generalize STARTING_HASH.
  induction bytes as [|b bytes IH]; intros h Hh Hall; [reflexivity|].
  inversion Hall; subst. cbn [fold_left]. rewrite hash_step_spec by assumption.
  apply IH; [|assumption]. apply Z.mod_pos_bound. unfold u32_modulus. lia.
Qed.

(** ** A bucket of [2^31] entries *)

Lemma ordered_table_wraps tbl :
  Z.of_nat (length tbl) = 2 ^ 31 -> ordered_table tbl = Panic.
Proof.
  intros Hl. unfold ordered_table. rewrite Hl.
  replace (as_u32 (2 ^ 31 * 2)) with 0 by reflexivity.
  destruct tbl as [|e tbl]; [cbn in Hl; lia|]. reflexivity.
Qed.

Lemma write_tables_panic pre tbl post :
  (forall t, In t pre -> exists r, ordered_table t = Ok r) -> ordered_table tbl = Panic ->
  forall w bs, write_tables w (pre ++ tbl :: post) bs = Panic.
Proof.
  intros Hpre Htbl. induction pre as [|t pre IH]; intros w bs.
  - cbn [app write_tables]. now rewrite Htbl.
  - cbn [app write_tables]. destruct (Hpre t (or_introl eq_refl)) as [[len ord] Hr].
    rewrite Hr, bind_ok. unfold writer_seek_end. destruct (seek_end (w_file w)) as [f n].
    rewrite bind_ok. apply IH. intros t' Ht'. apply Hpre. now right.
Qed.

Lemma entries_from_empty_keys N : forall p e,
  In e (entries_from p (repeat ([], []) N)) -> ie_hash e = cdb_hash [].
Proof.
  induction N as [|N IH]; intros p e Hin; [destruct Hin|].
  cbn [repeat entries_from] in Hin. destruct Hin as [<- | Hin]; [reflexivity | eapply IH; exact Hin].
Qed.

Lemma filter_all_false {A} (f : A -> bool) l : (forall x, In x l -> f x = false) -> filter f l = [].
Proof.
  induction l as [|x l IH]; intros H; [reflexivity|]. cbn [filter].
  rewrite H by now left. apply IH. intros; apply H; now right.
Qed.

(** [2^31 - 1] puts of an empty key: bucket [5] holds [2^31] entries, its
    table length [(2^31 << 1) as u32] wraps to [0], and [slot] divides by
    zero. *)
Lemma build_repeat_panic N :
  Z.of_nat N = 2 ^ 31 - 1 -> build (repeat ([], []) N) = Panic.
Proof.
  intros HN. set (kvs := repeat ([], []) N).
  set (es := entries_from 2048 kvs).
  assert (Hh : forall e, In e es -> ie_hash e = 5381) by exact (entries_from_empty_keys N 2048).
  assert (Hidx : index_of es =
    map (bucket_list es) [0; 1; 2; 3; 4] ++ bucket_list es 5 :: map (bucket_list es) (map Z.of_nat (seq 6 250)))
    by reflexivity.
  assert (Hother : forall b, In b [0; 1; 2; 3; 4] -> bucket_list es b = [ie_default]).
  { intros b Hb. unfold bucket_list. f_equal. apply filter_all_false.
    intros e He. unfold in_bucket. rewrite (Hh e He).
    apply Z.eqb_neq. cbn in Hb. change (table 5381) with 5. intuition lia. }
  assert (H5 : Z.of_nat (length (bucket_list es 5)) = 2 ^ 31).
  { unfold bucket_list. rewrite filter_all_true.
    - cbn [length]. unfold es, kvs. rewrite entries_from_length, repeat_length. lia.
    - intros e He. unfold in_bucket. now rewrite (Hh e He). }
  unfold build. rewrite writer_after_spec, bind_ok. fold kvs. fold es.
  unfold finalize. cbn [w_file w_index seek_end contents].
  rewrite Hidx, write_tables_panic; [reflexivity | | now apply ordered_table_wraps].
  intros t Ht. apply in_map_iff in Ht. destruct Ht as (b & <- & Hb).
  rewrite (Hother b Hb). exists (2, [ie_default; ie_default]). reflexivity.
Qed.

(** ** Writer lists and table lengths *)

Lemma writer_lists kvs :
  exists w, writer_after kvs = Ok w /\ w_index w = final_index kvs.
Proof. rewrite writer_after_spec. eexists. split; [reflexivity|]. reflexivity. Qed.

Lemma final_index_nonempty kvs tbl : In tbl (final_index kvs) -> (1 <= length tbl)%nat.
Proof.
  unfold final_index, index_of. intros Hin. apply in_map_iff in Hin.
  destruct Hin as (b & <- & _). apply bucket_list_length.
Qed.

Lemma table_length_ok (tbl : list IndexEntry) :
  (1 <= length tbl)%nat -> Z.of_nat (length tbl) < 2 ^ 31 ->
  2 <= as_u32 (Z.of_nat (length tbl) * 2) /\
  forall h, slot h (as_u32 (Z.of_nat (length tbl) * 2))
            = Ok (Z.shiftr h 8 mod as_u32 (Z.of_nat (length tbl) * 2)).
Proof.
  intros H1 H2. unfold as_u32. rewrite Z.mod_small by (unfold u32_modulus; lia).
  split; [lia|]. intros h. unfold slot, rem.
  replace (Z.of_nat (length tbl) * 2 =? 0) with false by (symmetry; apply Z.eqb_neq; lia).
  reflexivity.
Qed.

(** * The claims *)

(** A pair with a repeated key. *)
Definition dup_kvs : list (list Z * list Z) := [([97], [120]); ([97], [121])].

Definition dup_kvs2 : list (list Z * list Z) := [([97], [120; 121]); ([97], [122; 119])].

(** One key, ["a"], with value ["b"]: its hash [177604] falls in bucket [196]. *)
Definition one_kv : list (list Z * list Z) := [([97], [98])].

(** ** C5 *)

(** C5 (counterexample): the hash of ["a"] is not [177638]. *)
Lemma C5_hash_a_not_177638 : cdb_hash [97] <> 177638.
Proof. vm_compute. discriminate. Qed.

(** C5 (amended): the hash of the empty string is [5381], and the hash of
    ["a"] is [((5381 * 33) mod 2^32) XOR 97 = 177573 XOR 97 = 177604]. *)
Theorem C5_hash_reference_values :
  cdb_hash [] = 5381 /\ cdb_hash [97] = Z.lxor (5381 * 33 mod u32_modulus) 97 /\
  cdb_hash [97] = 177604.
Proof. vm_compute. repeat split; reflexivity. Qed.

(** ** C6 *)

(** C6: for a byte string, [CDBHash::new] is the fold from [5381] of
    [H <- ((H << 5) + H) XOR b] modulo [2^32], its value is a [u32], the
    primary index is [H mod 256], and for [n > 0] the slot is
    [(H >> 8) mod n] (no panic). *)
Theorem C6_hash_definition bytes n :
  Forall is_byte bytes -> 0 < n ->
  cdb_hash bytes = spec_hash bytes /\ 0 <= cdb_hash bytes < u32_modulus /\
  table (cdb_hash bytes) = cdb_hash bytes mod 256 /\
  slot (cdb_hash bytes) n = Ok (Z.shiftr (cdb_hash bytes) 8 mod n).
Proof.
  intros Hb Hn. split; [now apply cdb_hash_spec_hash|]. split; [now apply cdb_hash_range|].
  split; [reflexivity|]. unfold slot, rem.
  replace (n =? 0) with false by (symmetry; apply Z.eqb_neq; lia). reflexivity.
Qed.

Lemma C6_hash_definition_witness :
  Forall is_byte [97; 98] /\ 0 < 3 /\
  (cdb_hash [97; 98] = spec_hash [97; 98] /\ 0 <= cdb_hash [97; 98] < u32_modulus /\
   table (cdb_hash [97; 98]) = cdb_hash [97; 98] mod 256 /\
   slot (cdb_hash [97; 98]) 3 = Ok (Z.shiftr (cdb_hash [97; 98]) 8 mod 3)).
Proof.
  assert (Hb : Forall is_byte [97; 98]) by (repeat constructor; unfold is_byte; lia).
  split; [exact Hb|]. split; [lia|].
  apply (C6_hash_definition [97; 98] 3 Hb). lia.
Defined.

(** ** C9 *)

(** C9: whatever the file, when [Reader::get] returns [Found(n)] the buffer
    keeps its length, only its first [n] bytes may change ([dest[n..]] keeps
    its contents) and [n <= dest.len()]; when it returns [NotFound] the
    buffer is unchanged; it never returns an error. *)
Theorem C9_get_frame (data key buf : list Z) :
  match get data key buf with
  | Ok (Some n, buf') =>
      0 <= n <= Z.of_nat (length buf) /\ length buf' = length buf /\
      skipn (Z.to_nat n) buf' = skipn (Z.to_nat n) buf
  | Ok (None, buf') => buf' = buf
  | Err _ => False
  | Panic => True
  end.
Proof.
  pose proof (get_no_err data key buf) as Hne.
  destruct (get data key buf) as [r| e |] eqn:Hg; [|destruct Hne|exact I].
  destruct (get_result_shape data key buf r Hg) as [-> | (v & ->)]; [reflexivity|].
  destruct (found_result buf v) as [[n|] buf'] eqn:Hf.
  - destruct (found_result_frame buf v n buf' Hf) as (-> & Hl & _ & Hs). split; [lia | auto].
  - unfold found_result, copy_slice in Hf. discriminate.
Qed.

(** ** C1 *)

(** C1 (counterexample): the pairs of [dup_kvs] are distinct, but they share
    the key ["a"]; looking ["a"] up returns the value of the first pair, not
    the value ["y"] of the second. *)
Lemma C1_repeated_key_lookup :
  NoDup dup_kvs /\ In ([97], [121]) dup_kvs /\
  build dup_kvs = Ok (layout dup_kvs) /\
  get (layout dup_kvs) [97] [0] = Ok (Some 1, [120]).
Proof.
  split; [|split; [cbn; auto | split; vm_compute; reflexivity]].
  constructor; [cbn; intros [H | []]; discriminate | constructor; [intros [] | constructor]].
Qed.

(** C1 (amended): for pairs with pairwise distinct (byte-string) keys whose
    finalised file fits the [u32] offsets of the format, [Reader::get(k, buf)]
    with [|buf| >= |v|] returns [Found(|v|)] and the buffer starts with [v]
    (the rest of it is unchanged). *)
Theorem C1_round_trip kvs k v buf :
  cdb_size kvs < u32_modulus -> keys_bytes kvs -> NoDup (map fst kvs) ->
  In (k, v) kvs -> (length v <= length buf)%nat ->
  exists data, build kvs = Ok data /\
    get data k buf = Ok (Some (Z.of_nat (length v)), v ++ skipn (length v) buf).
Proof.
  intros Hs Hkb Hnd Hin Hl. exists (layout kvs). split; [now apply build_spec|].
  rewrite (get_layout_found kvs k v buf Hs Hkb Hnd Hin). f_equal. now apply found_result_fits.
Qed.

Lemma C1_round_trip_witness :
  exists data, build one_kv = Ok data /\
    get data [97] [0; 0] = Ok (Some (Z.of_nat (length [98])), [98] ++ skipn (length [98]) [0; 0]).
Proof.
  apply (C1_round_trip one_kv [97] [98] [0; 0]).
  - vm_compute. reflexivity.
  - repeat constructor; unfold is_byte; lia.
  - repeat constructor. intros [].
  - left. reflexivity.
  - cbn. lia.
Defined.

(** ** C8 *)

(** C8 (counterexample): with the repeated key of [dup_kvs2], the pair
    (["a"], ["zw"]) is stored, yet a one-byte lookup of ["a"] yields ["x"]. *)
Lemma C8_repeated_key_truncation :
  In ([97], [122; 119]) dup_kvs2 /\
  build dup_kvs2 = Ok (layout dup_kvs2) /\
  get (layout dup_kvs2) [97] [0] = Ok (Some 1, [120]).
Proof. split; [cbn; auto | split; vm_compute; reflexivity]. Qed.

(** C8 (amended): with pairwise distinct keys (and the file within [u32]
    offsets), for a stored pair [(k, v)] and [|buf| < |v|],
    [Reader::get(k, buf)] returns [Found(|buf|)] and the buffer holds the
    first [|buf|] bytes of [v]. *)
Theorem C8_truncation kvs k v buf :
  cdb_size kvs < u32_modulus -> keys_bytes kvs -> NoDup (map fst kvs) ->
  In (k, v) kvs -> (length buf < length v)%nat ->
  exists data, build kvs = Ok data /\
    get data k buf = Ok (Some (Z.of_nat (length buf)), firstn (length buf) v).
Proof.
  intros Hs Hkb Hnd Hin Hl. exists (layout kvs). split; [now apply build_spec|].
  rewrite (get_layout_found kvs k v buf Hs Hkb Hnd Hin). f_equal. now apply found_result_truncates.
Qed.

Lemma C8_truncation_witness :
  exists data, build [([97], [98; 99])] = Ok data /\
    get data [97] [0] = Ok (Some (Z.of_nat (length [0])), firstn (length [0]) [98; 99]).
Proof.
  apply (C8_truncation [([97], [98; 99])] [97] [98; 99] [0]).
  - vm_compute. reflexivity.
  - repeat constructor; unfold is_byte; lia.
  - repeat constructor. intros [].
  - left. reflexivity.
  - cbn. lia.
Defined.

(** ** C7 *)

(** C7: in a file built from byte-string keys (within [u32] offsets), a key
    [k'] that was not put is [NotFound], the buffer untouched; and the
    empty-slot exit never skips a stored key: every key put is [Found],
    with the value of one of its pairs. *)
Theorem C7_absence kvs k' buf :
  cdb_size kvs < u32_modulus -> keys_bytes kvs -> Forall is_byte k' -> ~ In k' (map fst kvs) ->
  exists data, build kvs = Ok data /\ get data k' buf = Ok (None, buf) /\
    forall k v, In (k, v) kvs ->
      exists v', In (k, v') kvs /\ get data k buf = Ok (found_result buf v').
Proof.
  intros Hs Hkb Hk Hnot. exists (layout kvs). split; [now apply build_spec|].
  split; [now apply get_layout_not_found|].
  intros k v Hin. now apply (get_layout_stored kvs k v buf).
Qed.

Lemma C7_absence_witness :
  exists data, build one_kv = Ok data /\ get data [98] [0] = Ok (None, [0]) /\
    forall k v, In (k, v) one_kv ->
      exists v', In (k, v') one_kv /\ get data k [0] = Ok (found_result [0] v').
Proof.
  apply (C7_absence one_kv [98] [0]).
  - vm_compute. reflexivity.
  - repeat constructor; unfold is_byte; lia.
  - repeat constructor; unfold is_byte; lia.
  - cbn. intros [H | []]. discriminate.
Defined.

(** ** C2 *)

(** C2 (counterexample): the empty database, truncated by its last byte;
    looking up ["Z"] (hash in bucket [255], slot [1]) reads the last slot of
    the last secondary table past the end of the data, and panics. *)
Lemma C2_truncated_file_panics :
  build [] = Ok (layout []) /\ get (removelast (layout [])) [90] [] = Panic.
Proof. split; vm_compute; reflexivity. Qed.

(** C2 (amended): [Reader::get] has no error outcome: on any data, well
    formed or not, it returns [Found] or [NotFound], or it panics (as on a
    truncated file). *)
Theorem C2_get_outcomes (data key buf : list Z) :
  get data key buf = Panic \/ exists r, get data key buf = Ok r.
Proof.
  pose proof (get_no_err data key buf) as H.
  destruct (get data key buf) as [r | e |]; [right; now exists r | destruct H | now left].
Qed.

(** ** C3 *)

(** C3 (counterexample): one key in bucket [196]; its primary entry has
    [num_ents = 4] but its secondary table holds one real entry. *)
Lemma C3_one_key_bucket :
  build one_kv = Ok (layout one_kv) /\
  bucket_at (layout one_kv) 196 = Ok (mkBucket 5194 4) /\
  real_entries (layout one_kv) (mkBucket 5194 4) = Ok 1%nat.
Proof. repeat split; vm_compute; reflexivity. Qed.

(** C3 (amended): in a finalised file (within [u32] offsets), the primary
    entry of every bucket [b] has [num_ents = 2 * (m + 1)], even, where [m]
    is the number of real entries of its secondary table, which is the
    number of keys put into [b]: the [(0, 0)] entry each bucket list starts
    with counts as one more entry. *)
Theorem C3_num_ents kvs b :
  cdb_size kvs < u32_modulus -> 0 <= b < 256 ->
  exists data bk m, build kvs = Ok data /\ bucket_at data b = Ok bk /\
    real_entries data bk = Ok m /\ m = bucket_size kvs b /\
    b_num_ents bk = 2 * (Z.of_nat m + 1).
Proof.
  intros Hs Hb. destruct (bucket_layout kvs b Hs Hb) as (t & _ & Hbk & _ & _).
  exists (layout kvs), (mkBucket (table_pos kvs b) (2 * (Z.of_nat (bucket_size kvs b) + 1))),
    (bucket_size kvs b).
  split; [now apply build_spec|]. split; [exact Hbk|]. split; [|split; reflexivity].
  now apply real_entries_layout.
Qed.

Lemma C3_num_ents_witness :
  exists data bk m, build one_kv = Ok data /\ bucket_at data 196 = Ok bk /\
    real_entries data bk = Ok m /\ m = bucket_size one_kv 196 /\
    b_num_ents bk = 2 * (Z.of_nat m + 1).
Proof. apply (C3_num_ents one_kv 196); [vm_compute; reflexivity | lia]. Defined.

(** ** C4 *)

(** C4 (counterexample): in the empty database bucket [0] is empty, and its
    primary entry is [(2048, 2)], not [(0, 0)]. *)
Lemma C4_empty_bucket_entry :
  build [] = Ok (layout []) /\ bucket_at (layout []) 0 = Ok (mkBucket 2048 2).
Proof. split; vm_compute; reflexivity. Qed.

(** C4 (amended): in a finalised file (within [u32] offsets), a bucket [b]
    into which no key was put has [num_ents = 2], a secondary table of two
    empty [(0, 0)] slots, and primary entry [(ptr, 2)] where [ptr >= 2048]
    is the offset of that table. *)
Theorem C4_empty_bucket kvs b :
  cdb_size kvs < u32_modulus -> 0 <= b < 256 -> bucket_size kvs b = 0%nat ->
  exists data, build kvs = Ok data /\
    bucket_at data b = Ok (mkBucket (table_pos kvs b) 2) /\
    MAIN_TABLE_SIZE_BYTES <= table_pos kvs b /\
    read_entries data (table_pos kvs b) 2 = Ok [ie_default; ie_default].
Proof.
  intros Hs Hb H0. destruct (bucket_layout kvs b Hs Hb) as (t & Hinv & Hbk & Hread & Hpos).
  rewrite H0 in Hbk, Hread, Hinv. cbn [Z.of_nat Z.add Z.mul Z.to_nat] in Hbk, Hread, Hinv.
  pose proof (ti_length _ _ _ Hinv) as Hl.
  rewrite (empty_bucket_table kvs b t 2 Hinv H0 Hl) in Hread.
  exists (layout kvs). split; [now apply build_spec|]. auto.
Qed.

Lemma C4_empty_bucket_witness :
  exists data, build [] = Ok data /\
    bucket_at data 0 = Ok (mkBucket (table_pos [] 0) 2) /\
    MAIN_TABLE_SIZE_BYTES <= table_pos [] 0 /\
    read_entries data (table_pos [] 0) 2 = Ok [ie_default; ie_default].
Proof. apply (C4_empty_bucket [] 0); [vm_compute; reflexivity | lia | reflexivity]. Defined.

(** ** C10 *)

(** C10 (counterexample): [2^31 - 1] puts of the empty key fill bucket [5]
    with [2^31] entries; [(2^31 << 1) as u32] is [0] and finalisation
    panics dividing by it in [slot]. *)
Lemma C10_wrapped_length_panics : build (repeat ([], []) (Z.to_nat (2 ^ 31 - 1))) = Panic.
Proof. apply build_repeat_panic. rewrite Z2Nat.id; lia. Qed.

(** C10 (amended): for every sequence of puts, each of the 256 lists the
    writer holds at finalisation is non-empty, and a list of fewer than
    [2^31] entries (fewer than [2^31 - 1] keys put into its bucket) gets a
    table length [(len << 1) as u32 >= 2], so [slot] does not divide by
    zero. *)
Theorem C10_lists_nonempty kvs :
  exists w, writer_after kvs = Ok w /\ length (w_index w) = 256%nat /\
    forall tbl, In tbl (w_index w) ->
      (1 <= length tbl)%nat /\
      (Z.of_nat (length tbl) < 2 ^ 31 ->
       2 <= as_u32 (Z.of_nat (length tbl) * 2) /\
       forall h, slot h (as_u32 (Z.of_nat (length tbl) * 2))
                 = Ok (Z.shiftr h 8 mod as_u32 (Z.of_nat (length tbl) * 2))).
Proof.
  destruct (writer_lists kvs) as (w & Hw & Hi). exists w. split; [exact Hw|].
  rewrite Hi. split; [unfold final_index; apply index_of_length|].
  intros tbl Hin. pose proof (final_index_nonempty kvs tbl Hin) as H1.
  split; [exact H1|]. intros H2. now apply table_length_ok.
Qed.

(** * Further properties of the code *)

(** ** Encoding *)

(** X1: the [u32] little-endian encoding round-trips: reading back what
    [put_u32_le] wrote gives the value modulo [2^32], and re-encoding the
    value read from four bytes gives those bytes back. *)
Theorem u32_le_round_trip (x : Z) (bs rest : list Z) :
  length bs = 4%nat -> Forall is_byte bs ->
  get_u32_le (put_u32_le x ++ rest) = x mod u32_modulus /\
  put_u32_le (get_u32_le (bs ++ rest)) = bs.
Proof.
  intros Hl Hb. split; [apply get_put_u32_le_mod|].
  destruct bs as [|b0 [|b1 [|b2 [|b3 [|? ?]]]]]; cbn in Hl; try discriminate.
  apply Forall_inv in Hb as H0. apply Forall_inv_tail in Hb.
  apply Forall_inv in Hb as H1. apply Forall_inv_tail in Hb.
  apply Forall_inv in Hb as H2. apply Forall_inv_tail in Hb.
  apply Forall_inv in Hb as H3. unfold is_byte in *.
  cbn [app get_u32_le]. unfold put_u32_le.
  rewrite !Z.shiftl_mul_pow2, !Z.shiftr_div_pow2 by lia.
  change 255 with (Z.ones 8). rewrite !Z.land_ones by lia.
  change (2 ^ 8) with 256 in *. change (2 ^ 16) with 65536 in *.
  change (2 ^ 24) with 16777216 in *.
  assert (D : forall lo b hi c, 0 <= lo < c -> 0 <= b < 256 ->
             ((lo + (b + hi * 256) * c) / c) mod 256 = b).
  { intros lo b hi c Hlo Hb'. rewrite Z.div_add, Z.div_small, Z.add_0_l by lia.
    rewrite Z.mod_add, Z.mod_small by lia. reflexivity. }
  f_equal; [|f_equal; [|f_equal; [|f_equal]]].
  - replace (b0 + b1 * 256 + b2 * 65536 + b3 * 16777216)
      with ((0 + (b0 + (b1 + b2 * 256 + b3 * 65536) * 256) * 1) / 1)
      by (rewrite Z.div_1_r; ring). apply D; lia.
  - replace (b0 + b1 * 256 + b2 * 65536 + b3 * 16777216)
      with (b0 + (b1 + (b2 + b3 * 256) * 256) * 256) by ring. apply D; lia.
  - replace (b0 + b1 * 256 + b2 * 65536 + b3 * 16777216)
      with ((b0 + b1 * 256) + (b2 + b3 * 256) * 65536) by ring. apply D; lia.
  - replace (b0 + b1 * 256 + b2 * 65536 + b3 * 16777216)
      with ((b0 + b1 * 256 + b2 * 65536) + (b3 + 0 * 256) * 16777216) by ring. apply D; lia.
Qed.

Lemma u32_le_round_trip_witness :
  get_u32_le (put_u32_le (2 ^ 32 + 7) ++ [9]) = (2 ^ 32 + 7) mod u32_modulus /\
  put_u32_le (get_u32_le ([1; 2; 255; 0] ++ [9])) = [1; 2; 255; 0].
Proof.
  apply u32_le_round_trip; [reflexivity|].
  repeat constructor; unfold is_byte; lia.
Defined.

(** ** [copy_slice] *)

(** X2: [copy_slice dst src] copies [n = min(|dst|, |src|)] bytes: the
    destination keeps its length, its first [n] bytes are those of [src]
    and the rest is untouched. *)
Theorem copy_slice_frame (dst src : list Z) :
  let '(dst', n) := copy_slice dst src in
  n = Z.min (Z.of_nat (length dst)) (Z.of_nat (length src)) /\
  length dst' = length dst /\
  firstn (Z.to_nat n) dst' = firstn (Z.to_nat n) src /\
  skipn (Z.to_nat n) dst' = skipn (Z.to_nat n) dst.
Proof.
  destruct (copy_slice dst src) as [dst' n] eqn:E.
  apply (found_result_frame dst src n dst'). unfold found_result. now rewrite E.
Qed.

(** ** [Reader::bucket_at] and [Reader::index_entry_at] *)

(** X3: [bucket_at] never returns an error; it panics exactly when the index
    is not below [256] or the data does not hold the 8 bytes at [8 * idx]. *)
Theorem bucket_at_panics (data : list Z) (idx : Z) :
  (forall e, bucket_at data idx <> Err e) /\
  (bucket_at data idx = Panic <->
   ~ (0 <= idx < MAIN_TABLE_SIZE /\ 8 * idx + 8 <= Z.of_nat (length data))).
Proof.
  unfold bucket_at, assert_, slice, MAIN_TABLE_SIZE.
  destruct (idx <? 256) eqn:E1; cbn [bind];
    [|split; [discriminate|]; apply Z.ltb_ge in E1; split; [lia|reflexivity]].
  apply Z.ltb_lt in E1.
  destruct ((0 <=? 8 * idx) && (8 * idx <=? 8 * idx + 8) && (8 * idx + 8 <=? Z.of_nat (length data))) eqn:E2;
    cbn [bind]; rewrite ?andb_true_iff, ?andb_false_iff, ?Z.leb_le, ?Z.leb_gt in E2.
  - split; [discriminate|]. split; [discriminate|]. lia.
  - split; [discriminate|]. split; [lia|reflexivity].
Qed.

(** X4: [bucket_at idx] reads back a bucket encoded as the
    finaliser writes it at offset [8 * idx], each field modulo [2^32]. *)
Theorem bucket_at_encode_bucket (pre post : list Z) (bk : Bucket) (idx : Z) :
  0 <= idx < MAIN_TABLE_SIZE -> Z.of_nat (length pre) = 8 * idx ->
  bucket_at (pre ++ encode_bucket bk ++ post) idx
  = Ok (mkBucket (b_ptr bk mod u32_modulus) (b_num_ents bk mod u32_modulus)).
Proof.
  intros Hi Hl. unfold bucket_at, assert_.
  replace (idx <? MAIN_TABLE_SIZE) with true by (symmetry; apply Z.ltb_lt; lia).
  rewrite bind_ok, slice_mid by (unfold encode_bucket; rewrite ?length_app, ?put_u32_le_length; lia).
  rewrite bind_ok. unfold encode_bucket.
  rewrite get_put_u32_le_mod, skipn_put_u32_le, get_put_u32_le_single. reflexivity.
Qed.

Lemma bucket_at_encode_bucket_witness :
  bucket_at (repeat 0 8 ++ encode_bucket (mkBucket 4096 (2 ^ 32 + 2)) ++ [1]) 1
  = Ok (mkBucket (4096 mod u32_modulus) ((2 ^ 32 + 2) mod u32_modulus)).
Proof. apply bucket_at_encode_bucket; [unfold MAIN_TABLE_SIZE; lia | reflexivity]. Defined.

(** X5: [index_entry_at] never returns an error; it panics exactly when the
    position lies in the primary table (below [2048]) or the data does not
    hold the 8 bytes from it. *)
Theorem index_entry_at_panics (data : list Z) (pos : Z) :
  (forall e, index_entry_at data pos <> Err e) /\
  (index_entry_at data pos = Panic <->
   pos < MAIN_TABLE_SIZE_BYTES \/ Z.of_nat (length data) < pos + 8).
Proof.
  unfold index_entry_at, slice, MAIN_TABLE_SIZE_BYTES.
  destruct (pos <? 2048) eqn:E1;
    [apply Z.ltb_lt in E1; split; [discriminate|]; split; [lia|reflexivity]|].
  apply Z.ltb_ge in E1.
  destruct ((0 <=? pos) && (pos <=? pos + 8) && (pos + 8 <=? Z.of_nat (length data))) eqn:E2;
    cbn [bind]; rewrite ?andb_true_iff, ?andb_false_iff, ?Z.leb_le, ?Z.leb_gt in E2.
  - split; [discriminate|]. split; [discriminate|]. lia.
  - split; [discriminate|]. split; [lia|reflexivity].
Qed.

(** X6: [index_entry_at pos] reads back a slot encoded as the
    finaliser writes it at [pos >= 2048], each field modulo [2^32]. *)
Theorem index_entry_at_encode_entry (pre post : list Z) (e : IndexEntry) :
  MAIN_TABLE_SIZE_BYTES <= Z.of_nat (length pre) ->
  index_entry_at (pre ++ encode_entry e ++ post) (Z.of_nat (length pre))
  = Ok (mkIndexEntry (ie_hash e mod u32_modulus) (ie_ptr e mod u32_modulus)).
Proof.
  intros Hl. unfold index_entry_at.
  replace (Z.of_nat (length pre) <? MAIN_TABLE_SIZE_BYTES) with false by (symmetry; apply Z.ltb_ge; lia).
  rewrite slice_mid by (unfold encode_entry; rewrite ?length_app, ?put_u32_le_length; lia).
  rewrite bind_ok. unfold encode_entry.
  rewrite get_put_u32_le_mod, skipn_put_u32_le, get_put_u32_le_single. reflexivity.
Qed.

Lemma index_entry_at_encode_entry_witness :
  index_entry_at (repeat 0 2048 ++ encode_entry (mkIndexEntry 177604 2048) ++ [])
    (Z.of_nat (length (repeat 0 2048)))
  = Ok (mkIndexEntry (177604 mod u32_modulus) (2048 mod u32_modulus)).
Proof. apply index_entry_at_encode_entry. rewrite repeat_length. unfold MAIN_TABLE_SIZE_BYTES. lia. Defined.

(** ** Records: [Writer::put] and [Reader::get_kv_ref] *)

(** X7: a record laid out as [put] writes it, [(|k|, |v|, k, v)], is read
    back by [get_kv_ref] from an index entry pointing at its first byte,
    whatever the bytes around it, as long as both lengths fit a [u32]. *)
Theorem get_kv_ref_record (pre post k v : list Z) (h : Z) :
  Z.of_nat (length k) < u32_modulus -> Z.of_nat (length v) < u32_modulus ->
  get_kv_ref (pre ++ record_bytes k v ++ post) (mkIndexEntry h (Z.of_nat (length pre)))
  = Ok (mkKVRef k v).
Proof.
  intros Hk Hv. unfold get_kv_ref. cbn [ie_ptr].
  set (hd := put_u32_le (as_u32 (Z.of_nat (length k))) ++ put_u32_le (as_u32 (Z.of_nat (length v)))).
  assert (Hhd : length hd = 8%nat) by (unfold hd; rewrite length_app, !put_u32_le_length; reflexivity).
  replace (pre ++ record_bytes k v ++ post) with (pre ++ hd ++ (k ++ v ++ post))
    by (unfold record_bytes, hd; now rewrite <- !app_assoc).
  rewrite slice_mid by (unfold INDEX_ENTRY_SIZE; lia).
  rewrite bind_ok. unfold hd.
  rewrite firstn_put_u32_le, skipn_put_u32_le, !get_put_u32_le_single, !as_u32_idem.
  fold hd. unfold as_u32. rewrite !Z.mod_small by lia.
  rewrite (app_assoc pre hd (k ++ v ++ post)), slice_mid.
  2:{ rewrite length_app, Hhd. unfold INDEX_ENTRY_SIZE. lia. }
  2:{ reflexivity. }
  rewrite bind_ok, (app_assoc (pre ++ hd) k (v ++ post)), slice_mid.
  2:{ rewrite !length_app, Hhd. unfold INDEX_ENTRY_SIZE. lia. }
  2:{ reflexivity. }
  reflexivity.
Qed.

Lemma get_kv_ref_record_witness :
  get_kv_ref ([7; 7] ++ record_bytes (str "abc") (str "def") ++ [1; 2])
    (mkIndexEntry 0 (Z.of_nat (length [7; 7])))
  = Ok (mkKVRef (str "abc") (str "def")).
Proof. apply get_kv_ref_record; vm_compute; reflexivity. Defined.

(** ** [Writer::new] and [Writer::put] on a file that is not empty *)

Lemma file_write_at (pre rest bs : list Z) :
  file_write (mkFile (pre ++ rest) (Z.of_nat (length pre))) bs
  = mkFile (pre ++ bs ++ skipn (length bs) rest) (Z.of_nat (length (pre ++ bs))).
Proof.
  unfold file_write; cbn [contents cursor]. rewrite Nat2Z.id, length_app.
  rewrite firstn_app, firstn_all, Nat.sub_diag, firstn_O, app_nil_r.
  replace (length pre - (length pre + length rest))%nat with 0%nat by lia. cbn [repeat app].
  rewrite skipn_app, skipn_all2 by lia. cbn [app].
  replace (length pre + length bs - length pre)%nat with (length bs) by lia.
  f_equal. rewrite length_app. lia.
Qed.

Lemma put_at (pre rest : list Z) es k v :
  put (mkWriter (mkFile (pre ++ rest) (Z.of_nat (length pre))) (index_of es)) k v
  = Ok (mkWriter (mkFile (pre ++ record_bytes k v ++ skipn (length (record_bytes k v)) rest)
                         (Z.of_nat (length (pre ++ record_bytes k v))))
                 (index_of (es ++ [mkIndexEntry (cdb_hash k) (as_u32 (Z.of_nat (length pre)))]))).
Proof.
  unfold put. cbn [seek_current w_file w_index]. rewrite file_write_at.
  pose proof (table_range (cdb_hash k)) as Ht.
  rewrite (vec_get_ok _ _ []) by (rewrite index_of_length; lia). rewrite bind_ok.
  rewrite index_of_nth by lia. rewrite Z2Nat.id by lia.
  pose proof (index_of_push es (mkIndexEntry (cdb_hash k) (as_u32 (Z.of_nat (length pre))))) as P.
  cbn [ie_hash] in P. cbn [cursor]. rewrite P. reflexivity.
Qed.

Lemma put_all_at kvs : forall (pre rest : list Z) es,
  put_all (mkWriter (mkFile (pre ++ rest) (Z.of_nat (length pre))) (index_of es)) kvs
  = Ok (mkWriter (mkFile (pre ++ records kvs ++ skipn (length (records kvs)) rest)
                         (Z.of_nat (length (pre ++ records kvs))))
                 (index_of (es ++ entries_from (Z.of_nat (length pre)) kvs))).
Proof.
  induction kvs as [|[k v] kvs IH]; intros pre rest es.
  - cbn. now rewrite !app_nil_r.
  - cbn [put_all]. rewrite put_at, bind_ok, app_assoc, IH. cbn [records entries_from].
    rewrite <- !app_assoc, skipn_skipn. f_equal. f_equal.
    + replace (length (records kvs) + length (record_bytes k v))%nat
        with (length (record_bytes k v ++ records kvs)) by (rewrite length_app; lia).
      reflexivity.
    + do 3 f_equal. cbn [app]. rewrite length_app, Nat2Z.inj_add. reflexivity.
Qed.

(** X8: [Writer::new] on a file that already holds bytes zeroes only the
    first 2048 of them and leaves the writer positioned at 2048; the puts
    then overwrite from there, so bytes of the old file beyond the new
    records survive. The records and the index entries are those of an
    empty file. *)
Theorem writer_new_keeps_tail (old : list Z) (cur : Z) (kvs : list (list Z * list Z)) :
  (w <- writer_new (mkFile old cur) ;; put_all w kvs)
  = Ok (mkWriter (mkFile (repeat 0 2048 ++ records kvs
                            ++ skipn (2048 + length (records kvs)) old)
                         (2048 + Z.of_nat (length (records kvs))))
                 (index_of (entries_from 2048 kvs))).
Proof.
  replace (writer_new (mkFile old cur))
    with (Ok (mkWriter (mkFile (repeat 0 2048 ++ skipn 2048 old) (Z.of_nat (length (repeat 0 2048))))
                       (index_of []))) by reflexivity.
  rewrite bind_ok, put_all_at, skipn_skipn, length_app, repeat_length. cbn [app].
  rewrite (Nat.add_comm (length (records kvs))), Nat2Z.inj_add. reflexivity.
Qed.

(** X9: [put] on a writer positioned at the end of its file (as after
    [Writer::new] on an empty file and earlier puts) appends the record and
    pushes [(hash(k), ptr)] onto the list of bucket [table(hash(k))], where
    [ptr] is the offset the record starts at; the other 255 lists are left
    as they were. *)
Theorem put_pushes_entry (c : list Z) (idx : list (list IndexEntry)) (k v : list Z) :
  length idx = 256%nat ->
  exists idx',
    put (mkWriter (mkFile c (Z.of_nat (length c))) idx) k v
    = Ok (mkWriter (mkFile (c ++ record_bytes k v) (Z.of_nat (length (c ++ record_bytes k v)))) idx') /\
    length idx' = 256%nat /\
    forall b, (b < 256)%nat ->
      nth b idx' [] = if Nat.eqb b (Z.to_nat (table (cdb_hash k)))
                      then nth b idx [] ++ [mkIndexEntry (cdb_hash k) (as_u32 (Z.of_nat (length c)))]
                      else nth b idx [].
Proof.
  intros Hl. pose proof (table_range (cdb_hash k)) as Ht.
  unfold put. cbn [seek_current w_file w_index cursor]. rewrite file_write_end.
  rewrite (vec_get_ok _ _ []) by lia. rewrite bind_ok.
  rewrite vec_set_ok by lia. rewrite bind_ok.
  eexists. split; [reflexivity|]. split.
  - rewrite replace_length; lia.
  - intros b Hb. rewrite replace_nth by lia.
    destruct (Nat.eqb_spec b (Z.to_nat (table (cdb_hash k)))) as [->|]; reflexivity.
Qed.

Lemma put_pushes_entry_witness :
  exists idx',
    put (mkWriter (mkFile [] (Z.of_nat (length (@nil Z)))) (repeat [ie_default] 256)) [97] [98]
    = Ok (mkWriter (mkFile ([] ++ record_bytes [97] [98])
                           (Z.of_nat (length ([] ++ record_bytes [97] [98])))) idx') /\
    length idx' = 256%nat /\
    forall b, (b < 256)%nat ->
      nth b idx' [] = if Nat.eqb b (Z.to_nat (table (cdb_hash [97])))
                      then nth b (repeat [ie_default] 256) []
                           ++ [mkIndexEntry (cdb_hash [97]) (as_u32 (Z.of_nat (length (@nil Z))))]
                      else nth b (repeat [ie_default] 256) [].
Proof. apply put_pushes_entry. reflexivity. Defined.

(** ** [Reader::get] on files that are not finalised or too short *)

(** X10: a file whose primary table is all zeros (as a writer leaves it
    before [finalize] runs, since [Writer::new] writes 2048 zero bytes)
    reads as empty: every bucket has [num_ents = 0], so [get] returns
    [NotFound] for every key and leaves the buffer alone. *)
Theorem get_zero_header (rest key buf : list Z) :
  get (repeat 0 2048 ++ rest) key buf = Ok (None, buf).
Proof.
  pose proof (table_range (cdb_hash key)) as Ht.
  set (t := Z.to_nat (table (cdb_hash key))).
  replace (repeat 0 2048) with (repeat 0 (8 * t) ++ repeat 0 8 ++ repeat 0 (2040 - 8 * t))
    by (rewrite <- !repeat_app; f_equal; unfold t; lia).
  unfold get, bucket_at, assert_.
  replace (table (cdb_hash key) <? MAIN_TABLE_SIZE) with true
    by (symmetry; apply Z.ltb_lt; unfold MAIN_TABLE_SIZE; lia).
  rewrite bind_ok, <- !app_assoc, slice_mid by (rewrite ?repeat_length; unfold t; lia).
  reflexivity.
Qed.

(** X11: [get] panics, whatever the key, when the data is too short to hold
    the primary-table entry of the key's bucket ([8 * table(hash) + 8]
    bytes). *)
Theorem get_short_data_panics (data key buf : list Z) :
  Z.of_nat (length data) < 8 * table (cdb_hash key) + 8 ->
  get data key buf = Panic.
Proof.
  intros Hs. pose proof (table_range (cdb_hash key)) as Ht.
  unfold get, bucket_at, assert_, slice.
  replace (table (cdb_hash key) <? MAIN_TABLE_SIZE) with true
    by (symmetry; apply Z.ltb_lt; unfold MAIN_TABLE_SIZE; lia).
  rewrite bind_ok.
  replace ((0 <=? 8 * table (cdb_hash key)) && (8 * table (cdb_hash key) <=? 8 * table (cdb_hash key) + 8)
           && (8 * table (cdb_hash key) + 8 <=? Z.of_nat (length data))) with false
    by (symmetry; rewrite !andb_false_iff, Z.leb_gt; lia).
  reflexivity.
Qed.

Lemma get_short_data_panics_witness : get (repeat 0 40) [] [1; 2] = Panic.
Proof. apply get_short_data_panics. vm_compute. reflexivity. Defined.

(** ** The finalised file *)

Lemma records_length_sum (kvs : list (list Z * list Z)) :
  length (records kvs) = list_sum (map (fun kv => 8 + length (fst kv) + length (snd kv))%nat kvs).
Proof.
  induction kvs as [|[k v] kvs IH]; [reflexivity|].
  cbn [records map list_sum fold_right fst snd]. rewrite length_app, record_bytes_length, IH. reflexivity.
Qed.

(** X12: when the offsets fit a [u32], [Writer::new], the puts and
    [finalize] produce a file of [2048 + sum (8 + |k| + |v|) + 16 * (n + 256)]
    bytes for [n] puts: the primary table, the records, and one secondary
    table of [2 * (m + 1)] slots of 8 bytes for a bucket holding [m]
    entries. *)
Theorem build_size (kvs : list (list Z * list Z)) :
  cdb_size kvs < u32_modulus ->
  exists data, build kvs = Ok data /\
    Z.of_nat (length data)
    = MAIN_TABLE_SIZE_BYTES
      + Z.of_nat (list_sum (map (fun kv => 8 + length (fst kv) + length (snd kv))%nat kvs))
      + 16 * (Z.of_nat (length kvs) + MAIN_TABLE_SIZE).
Proof.
  intros Hs. exists (layout kvs). split; [now apply build_spec|].
  rewrite layout_length by exact Hs. unfold cdb_size. now rewrite records_length_sum.
Qed.

Lemma build_size_witness :
  exists data, build test_kvs = Ok data /\
    Z.of_nat (length data)
    = MAIN_TABLE_SIZE_BYTES
      + Z.of_nat (list_sum (map (fun kv => 8 + length (fst kv) + length (snd kv))%nat test_kvs))
      + 16 * (Z.of_nat (length test_kvs) + MAIN_TABLE_SIZE).
Proof. apply build_size. vm_compute. reflexivity. Defined.

Lemma firstn_succ {A} (l : list A) n d : (n < length l)%nat ->
  firstn (S n) l = firstn n l ++ [nth n l d].
Proof.
  revert l. induction n as [|n IH]; intros [|x l] Hl; cbn in Hl; try lia.
  - reflexivity.
  - rewrite !firstn_cons. change (nth (S n) (x :: l) d) with (nth n l d).
    rewrite (IH l) by lia. reflexivity.
Qed.

Lemma ot_length_layout kvs b :
  cdb_size kvs < u32_modulus -> 0 <= b < 256 ->
  Z.of_nat (length (snd (ot (nth (Z.to_nat b) (final_index kvs) []))))
  = 2 * (Z.of_nat (bucket_size kvs b) + 1).
Proof.
  intros Hs Hb. rewrite final_index_nth by exact Hb.
  pose proof (cdb_size_bound kvs Hs) as Hbd.
  destruct (ot_bucket (entries_from MAIN_TABLE_SIZE_BYTES kvs) b) as (t & -> & Hinv).
  { now rewrite entries_from_length. }
  cbn [snd]. rewrite (ti_length _ _ _ Hinv), bucket_list_size. lia.
Qed.

Lemma table_pos_succ kvs b :
  cdb_size kvs < u32_modulus -> 0 <= b < 256 ->
  table_pos kvs (b + 1) = table_pos kvs b + 16 * (Z.of_nat (bucket_size kvs b) + 1).
Proof.
  intros Hs Hb. unfold table_pos.
  replace (Z.to_nat (b + 1)) with (S (Z.to_nat b)) by lia.
  rewrite (firstn_succ _ _ []) by (unfold final_index; rewrite index_of_length; lia).
  rewrite tables_bytes_app, length_app. cbn [tables_bytes]. rewrite app_nil_r, encode_entries_length.
  pose proof (ot_length_layout kvs b Hs Hb). lia.
Qed.

(** X13: in a finalised file (within the [u32] offsets) the primary table
    entry of bucket [b] is [(ptr_b, 2 * (m_b + 1))], [m_b] the number of
    puts whose key hashes into [b]; the secondary tables tile the end of
    the file in bucket order: bucket 0's starts right after the last
    record, each next one right after the previous, and bucket 255's ends
    at the end of the file. *)
Theorem primary_table_layout (kvs : list (list Z * list Z)) :
  cdb_size kvs < u32_modulus ->
  (forall b, 0 <= b < 256 ->
     bucket_at (layout kvs) b
     = Ok (mkBucket (table_pos kvs b) (2 * (Z.of_nat (bucket_size kvs b) + 1)))) /\
  table_pos kvs 0 = MAIN_TABLE_SIZE_BYTES + Z.of_nat (length (records kvs)) /\
  (forall b, 0 <= b < 255 ->
     table_pos kvs (b + 1) = table_pos kvs b + 8 * (2 * (Z.of_nat (bucket_size kvs b) + 1))) /\
  table_pos kvs 255 + 8 * (2 * (Z.of_nat (bucket_size kvs 255) + 1)) = Z.of_nat (length (layout kvs)).
Proof.
  intros Hs. split; [|split; [|split]].
  - intros b Hb. now destruct (bucket_layout kvs b Hs Hb) as (t & _ & Hat & _).
  - unfold table_pos. change (Z.to_nat 0) with 0%nat. cbn [firstn tables_bytes length]. lia.
  - intros b Hb. rewrite table_pos_succ by (exact Hs || lia). lia.
  - replace (table_pos kvs 255 + 8 * (2 * (Z.of_nat (bucket_size kvs 255) + 1)))
      with (table_pos kvs (255 + 1)) by (rewrite table_pos_succ by (exact Hs || lia); lia).
    unfold table_pos, layout. rewrite firstn_all2 by (unfold final_index; rewrite index_of_length; lia).
    rewrite !length_app, header_length. unfold MAIN_TABLE_SIZE_BYTES. lia.
Qed.

Lemma primary_table_layout_witness :
  (forall b, 0 <= b < 256 ->
     bucket_at (layout test_kvs) b
     = Ok (mkBucket (table_pos test_kvs b) (2 * (Z.of_nat (bucket_size test_kvs b) + 1)))) /\
  table_pos test_kvs 0 = MAIN_TABLE_SIZE_BYTES + Z.of_nat (length (records test_kvs)) /\
  (forall b, 0 <= b < 255 ->
     table_pos test_kvs (b + 1) = table_pos test_kvs b + 8 * (2 * (Z.of_nat (bucket_size test_kvs b) + 1))) /\
  table_pos test_kvs 255 + 8 * (2 * (Z.of_nat (bucket_size test_kvs 255) + 1))
  = Z.of_nat (length (layout test_kvs)).
Proof. apply primary_table_layout. vm_compute. reflexivity. Defined.

(** X14: in a finalised file (within the [u32] offsets, keys of bytes), the
    secondary table of bucket [b] read back slot by slot has
    [n = 2 * (m_b + 1)] slots; each slot is either empty [(0, 0)] or
    [(hash(k), offset of the record of k)] for a pair [(k, v)] put into
    bucket [b]; and every pair put into [b] sits in a slot reached from its
    preferred slot [(hash >> 8) mod n] by linear probing through occupied
    slots only, which is the path [Reader::get] follows. *)
Theorem secondary_table_placement (kvs : list (list Z * list Z)) (b : Z) :
  cdb_size kvs < u32_modulus -> keys_bytes kvs -> 0 <= b < 256 ->
  let n := 2 * (Z.of_nat (bucket_size kvs b) + 1) in
  exists slots,
    read_entries (layout kvs) (table_pos kvs b) (Z.to_nat n) = Ok slots /\
    Z.of_nat (length slots) = n /\
    (forall j, 0 <= j < n ->
       slot_at slots j = ie_default \/
       exists pre k v post, kvs = pre ++ (k, v) :: post /\ table (cdb_hash k) = b /\
         slot_at slots j
         = mkIndexEntry (cdb_hash k) (MAIN_TABLE_SIZE_BYTES + Z.of_nat (length (records pre)))) /\
    (forall pre k v post, kvs = pre ++ (k, v) :: post -> table (cdb_hash k) = b ->
       reaches slots n
         (mkIndexEntry (cdb_hash k) (MAIN_TABLE_SIZE_BYTES + Z.of_nat (length (records pre))))).
Proof.
  intros Hs Hkb Hb n.
  destruct (bucket_layout kvs b Hs Hb) as (t & Hinv & _ & Hread & _). fold n in Hinv, Hread.
  assert (Hnorm : map norm_entry t = t).
  { rewrite <- (map_id t) at 2. apply map_ext_in. intros e Hin.
    destruct (In_nth t e ie_default Hin) as (j & Hj & <-).
    replace (nth j t ie_default) with (slot_at t (Z.of_nat j)) by (unfold slot_at; now rewrite Nat2Z.id).
    apply (slot_normal kvs b t n); [exact Hs | exact Hkb | exact Hinv | lia]. }
  rewrite Hnorm in Hread. exists t. split; [exact Hread|]. split; [exact (ti_length _ _ _ Hinv)|].
  split.
  - intros j Hj. destruct (ti_all _ _ _ Hinv j ltac:(lia)) as [Hd | Hin]; [now left|].
    unfold bucket_list in Hin. destruct Hin as [Hd | Hin]; [now left|].
    apply filter_In in Hin as [Hin Hbk]. right.
    destruct (entry_decoded kvs _ Hs Hin) as (pre & k & v & post & Hk & He & _).
    exists pre, k, v, post. split; [exact Hk|]. split; [|exact He].
    unfold in_bucket in Hbk. rewrite He in Hbk. cbn [ie_hash] in Hbk. now apply Z.eqb_eq.
  - intros pre k v post Hk Htb.
    assert (Hin : In (mkIndexEntry (cdb_hash k) (MAIN_TABLE_SIZE_BYTES + Z.of_nat (length (records pre))))
                     (entries_from MAIN_TABLE_SIZE_BYTES kvs)).
    { pose proof (entries_from_in pre k v post MAIN_TABLE_SIZE_BYTES) as H. rewrite <- Hk in H.
      pose proof (records_prefix_bound _ _ _ _ _ Hk).
      replace (as_u32 (MAIN_TABLE_SIZE_BYTES + Z.of_nat (length (records pre))))
        with (MAIN_TABLE_SIZE_BYTES + Z.of_nat (length (records pre))) in H; [exact H|].
      unfold as_u32. symmetry. apply Z.mod_small.
      unfold cdb_size, MAIN_TABLE_SIZE_BYTES, MAIN_TABLE_SIZE, u32_modulus in *. lia. }
    apply (ti_reach _ _ _ Hinv).
    + right. apply filter_In. split; [exact Hin|]. unfold in_bucket. cbn [ie_hash]. now apply Z.eqb_eq.
    + now apply (entries_from_occupied kvs Hs).
Qed.

Lemma secondary_table_placement_witness :
  let n := 2 * (Z.of_nat (bucket_size test_kvs 98) + 1) in
  exists slots,
    read_entries (layout test_kvs) (table_pos test_kvs 98) (Z.to_nat n) = Ok slots /\
    Z.of_nat (length slots) = n /\
    (forall j, 0 <= j < n ->
       slot_at slots j = ie_default \/
       exists pre k v post, test_kvs = pre ++ (k, v) :: post /\ table (cdb_hash k) = 98 /\
         slot_at slots j
         = mkIndexEntry (cdb_hash k) (MAIN_TABLE_SIZE_BYTES + Z.of_nat (length (records pre)))) /\
    (forall pre k v post, test_kvs = pre ++ (k, v) :: post -> table (cdb_hash k) = 98 ->
       reaches slots n
         (mkIndexEntry (cdb_hash k) (MAIN_TABLE_SIZE_BYTES + Z.of_nat (length (records pre))))).
Proof.
  apply secondary_table_placement; [vm_compute; reflexivity | | lia].
  repeat constructor; unfold is_byte; lia.
Defined.

(** X15: [finalize] on a writer whose file starts with 2048 bytes
    (the zeros of [Writer::new]) followed by any bytes [rest], holding 256
    lists of at most [2^30] entries each, starting with an entry: it
    appends one secondary table per list at the end of the file, in order,
    then overwrites the first 2048 bytes with the primary table; [rest] is
    left in place, the lists are kept, and the cursor ends at offset 0. *)
Theorem finalize_appends_tables (z rest : list Z) (cur : Z) (I : list (list IndexEntry)) :
  length z = 2048%nat -> length I = 256%nat ->
  (forall tbl, In tbl I -> (1 <= length tbl)%nat /\ 4 * Z.of_nat (length tbl) <= u32_modulus) ->
  finalize (mkWriter (mkFile (z ++ rest) cur) I)
  = Ok (mkWriter (mkFile (concat (map encode_bucket (buckets_from (Z.of_nat (length (z ++ rest))) I))
                          ++ rest ++ tables_bytes I) 0) I).
Proof.
  intros Hz Hl Hb. apply finalize_spec; [exact Hz | exact Hl|].
  intros tbl Hin. destruct (Hb tbl Hin) as [H1 H2].
  destruct (ordered_table_ok tbl H1 H2) as (t & Ht & _). eexists. exact Ht.
Qed.

Lemma finalize_appends_tables_witness :
  finalize (mkWriter (mkFile (repeat 0 2048 ++ [5; 6]) 7) (repeat [ie_default] 256))
  = Ok (mkWriter (mkFile (concat (map encode_bucket
                                   (buckets_from (Z.of_nat (length (repeat 0 2048 ++ [5; 6])))
                                                 (repeat [ie_default] 256)))
                          ++ [5; 6] ++ tables_bytes (repeat [ie_default] 256)) 0)
                 (repeat [ie_default] 256)).
Proof.
  apply finalize_appends_tables; [reflexivity | reflexivity|].
  intros tbl Hin. apply repeat_spec in Hin. subst tbl. split; [simpl; lia | vm_compute; discriminate].
Defined.

(** ** [CDBHash] *)

(** X16: the hash of a byte string is a [u32]; [table] picks one of the 256
    buckets; [slot h n] is a slot index below [n] for [n > 0] and panics
    (division by zero) for [n = 0]. *)
Theorem hash_ranges (bytes : list Z) :
  Forall is_byte bytes ->
  0 <= cdb_hash bytes < u32_modulus /\
  0 <= table (cdb_hash bytes) < MAIN_TABLE_SIZE /\
  (forall n, 0 < n -> exists s, slot (cdb_hash bytes) n = Ok s /\ 0 <= s < n) /\
  slot (cdb_hash bytes) 0 = Panic.
Proof.
  intros Hb. split; [now apply cdb_hash_range|]. split; [apply table_range|]. split; [|reflexivity].
  intros n Hn. unfold slot, rem. replace (n =? 0) with false by (symmetry; apply Z.eqb_neq; lia).
  eexists. split; [reflexivity|]. now apply mod_range.
Qed.

Lemma hash_ranges_witness :
  0 <= cdb_hash (str "pink") < u32_modulus /\
  0 <= table (cdb_hash (str "pink")) < MAIN_TABLE_SIZE /\
  (forall n, 0 < n -> exists s, slot (cdb_hash (str "pink")) n = Ok s /\ 0 <= s < n) /\
  slot (cdb_hash (str "pink")) 0 = Panic.
Proof. apply hash_ranges. repeat constructor; unfold is_byte; lia. Defined.

(** ** Placement order in a secondary table *)

(** Every occupied entry of [placed] sits at some distance [d] from its
    preferred slot, and the slots it passes over on the way are occupied by
    entries placed before it. *)
Definition ord_inv (t : list IndexEntry) (n : Z) (placed : list IndexEntry) : Prop :=
  forall A e B, placed = A ++ e :: B -> occupied e = true ->
    exists d, 0 <= d < n /\ slot_at t ((start_of n e + d) mod n) = e /\
      forall d', 0 <= d' < d ->
        occupied (slot_at t ((start_of n e + d') mod n)) = true /\
        In (slot_at t ((start_of n e + d') mod n)) A.

Lemma split_last {T} (placed A B : list T) e x :
  placed ++ [e] = A ++ x :: B ->
  (A = placed /\ x = e /\ B = []) \/ exists B', B = B' ++ [e] /\ placed = A ++ x :: B'.
Proof.
  destruct B as [|y B] using rev_ind; intros H.
  - left. apply app_inj_tail in H as [-> ->]. auto.
  - right. exists B. rewrite app_comm_cons, app_assoc in H.
    apply app_inj_tail in H as [-> ->]. auto.
Qed.

Lemma place_one_ord n t placed e t' :
  0 < n -> 2 * n <= u32_modulus -> table_inv t n placed -> ord_inv t n placed ->
  (length (filter occupied placed) < Z.to_nat n)%nat ->
  place_loop n (start_of n e) e (Z.to_nat n) 0 t = Ok t' ->
  ord_inv t' n (placed ++ [e]).
Proof.
  intros Hn Hb [Hlen Hall Hreach Hfrom Hcount] Hord Hlt Hrun'.
  destruct (free_slot_exists t) as (j & Hj & Hjfree); [rewrite Hcount; lia|].
  set (s := start_of n e) in *. assert (Hs : 0 <= s < n) by (apply mod_range; lia).
  destruct (place_loop_ok n s e t Hn Hb Hs Hlen (Z.to_nat n) 0) as (d & Hd & Hdfree & Hpath & Hrun).
  - lia.
  - lia.
  - intros; lia.
  - exists ((j - s) mod n). pose proof (mod_range (j - s) n Hn). split; [lia|].
    rewrite Z.add_mod_idemp_r by lia. replace (s + (j - s)) with j by lia.
    rewrite Z.mod_small by lia. exact Hjfree.
  - rewrite Hrun in Hrun'. injection Hrun' as <-.
    set (js := (s + d) mod n) in *. assert (Hjs : 0 <= js < n) by (apply mod_range; lia).
    assert (Hkeep : forall k, 0 <= k < n -> occupied (slot_at t k) = true ->
                    slot_at (replace_at t js e) k = slot_at t k).
    { intros k Hk Hok. rewrite slot_at_replace by lia.
      destruct (Z.eqb_spec k js) as [->|]; [congruence | reflexivity]. }
    intros A x B Hsplit Hocc.
    destruct (split_last placed A B e x Hsplit) as [(-> & -> & ->) | (B' & -> & Hsp)].
    + exists d. split; [lia|]. split.
      * fold s. fold js. rewrite slot_at_replace by lia. now rewrite Z.eqb_refl.
      * intros d' Hd'. fold s. pose proof (mod_range (s + d') n Hn).
        rewrite Hkeep by (try lia; now apply Hpath). split; [now apply Hpath|].
        apply Hfrom; [lia | now apply Hpath].
    + destruct (Hord A x B' Hsp Hocc) as (dx & Hdx & Hat & Hbefore).
      exists dx. split; [exact Hdx|]. pose proof (mod_range (start_of n x + dx) n Hn).
      split.
      * rewrite Hkeep by (try lia; now rewrite Hat). exact Hat.
      * intros d' Hd'. pose proof (mod_range (start_of n x + d') n Hn).
        destruct (Hbefore d' Hd') as [Ho HA].
        rewrite Hkeep by (try lia; exact Ho). auto.
Qed.

Lemma place_all_ord n tbl :
  forall placed t t', 0 < n -> 2 * n <= u32_modulus ->
  table_inv t n placed -> ord_inv t n placed ->
  (length (filter occupied (placed ++ tbl)) < Z.to_nat n)%nat ->
  place_all n tbl t = Ok t' -> ord_inv t' n (placed ++ tbl).
Proof.
  induction tbl as [|e tbl IH]; intros placed t t' Hn Hb Hinv Hord Hlt Hrun.
  - cbn in Hrun. injection Hrun as <-. now rewrite app_nil_r.
  - cbn [place_all] in Hrun. unfold slot, rem in Hrun.
    replace (n =? 0) with false in Hrun by (symmetry; apply Z.eqb_neq; lia).
    rewrite bind_ok in Hrun. fold (start_of n e) in Hrun.
    assert (Hlt1 : (length (filter occupied placed) < Z.to_nat n)%nat)
      by (rewrite filter_app, length_app in Hlt; cbn [filter] in Hlt;
          destruct (occupied e); cbn [length] in Hlt; lia).
    destruct (place_one n t placed e Hn Hb Hinv Hlt1) as (t1 & Hrun1 & Hinv1).
    pose proof (place_one_ord n t placed e t1 Hn Hb Hinv Hord Hlt1 Hrun1) as Hord1.
    rewrite Hrun1, bind_ok in Hrun.
    replace (placed ++ e :: tbl) with ((placed ++ [e]) ++ tbl) in * by (now rewrite <- app_assoc).
    exact (IH (placed ++ [e]) t1 t' Hn Hb Hinv1 Hord1 Hlt Hrun).
Qed.

Lemma ordered_table_ord tbl n t :
  (1 <= length tbl)%nat -> 4 * Z.of_nat (length tbl) <= u32_modulus ->
  ordered_table tbl = Ok (n, t) -> ord_inv t n tbl.
Proof.
  intros H1 Hb Hot. unfold ordered_table in Hot.
  replace (as_u32 (Z.of_nat (length tbl) * 2)) with (2 * Z.of_nat (length tbl)) in Hot.
  2:{ unfold as_u32. rewrite Z.mod_small; unfold u32_modulus in *; lia. }
  set (L := 2 * Z.of_nat (length tbl)) in Hot.
  destruct (place_all L tbl (repeat ie_default (Z.to_nat L))) as [t'| |] eqn:Hrun;
    cbn [bind] in Hot; try discriminate.
  injection Hot as HL Ht. rewrite <- HL, <- Ht.
  apply (place_all_ord L tbl [] (repeat ie_default (Z.to_nat L)) t'); unfold L in *.
  - lia.
  - lia.
  - apply table_inv_init. lia.
  - intros A e B H. destruct A; discriminate.
  - cbn [app]. pose proof (filter_length_le occupied tbl). lia.
  - exact Hrun.
Qed.

Lemma entries_from_app l1 l2 : forall p,
  entries_from p (l1 ++ l2) = entries_from p l1 ++ entries_from (p + Z.of_nat (length (records l1))) l2.
Proof.
  induction l1 as [|[k v] l1 IH]; intros p; cbn [app entries_from records].
  - cbn [length]. now rewrite Z.add_0_r.
  - rewrite IH, length_app, Nat2Z.inj_add, Z.add_assoc. reflexivity.
Qed.

(** X17: with keys of bytes and offsets within [u32], [Reader::get] on the
    finalised file returns the value of the first pair put for the key, also
    when the key was put again later: the later entries of the key are
    placed further along its probe path than the first one. *)
Theorem get_first_put (kvs pre post : list (list Z * list Z)) (k v buf : list Z) :
  cdb_size kvs < u32_modulus -> keys_bytes kvs ->
  kvs = pre ++ (k, v) :: post -> ~ In k (map fst pre) ->
  get (layout kvs) k buf = Ok (found_result buf v).
Proof.
  intros Hs Hkb Hsplit Hfirst.
  assert (Hin : In (k, v) kvs) by (rewrite Hsplit; apply in_or_app; right; now left).
  pose proof (keys_bytes_in kvs k v Hkb Hin) as Hk.
  destruct (get_layout_loop kvs k buf Hs Hkb Hk) as (t & Hinv & Hot & Hent & ->).
  set (es := entries_from MAIN_TABLE_SIZE_BYTES kvs) in *.
  set (b := table (cdb_hash k)) in *.
  set (n := 2 * Z.of_nat (length (bucket_list es b))) in *.
  pose proof (cdb_size_bound kvs Hs) as Hb.
  pose proof (bucket_list_length es b) as Hbl.
  assert (Hesl : length es = length kvs) by apply entries_from_length.
  pose proof (records_prefix_bound _ _ _ _ _ Hsplit) as Hpre.
  set (e := mkIndexEntry (cdb_hash k) (as_u32 (MAIN_TABLE_SIZE_BYTES + Z.of_nat (length (records pre))))).
  set (A := ie_default :: filter (in_bucket b) (entries_from MAIN_TABLE_SIZE_BYTES pre)).
  assert (Hbl_split : exists B, bucket_list es b = A ++ e :: B).
  { eexists. unfold bucket_list, es, A. rewrite Hsplit, entries_from_app. cbn [entries_from].
    rewrite filter_app. cbn [filter]. unfold in_bucket at 2. cbn [ie_hash].
    fold b. rewrite Z.eqb_refl. reflexivity. }
  destruct Hbl_split as [B HblB].
  assert (Hord : ord_inv t n (bucket_list es b)).
  { destruct (ordered_table_ok (bucket_list es b)) as (t0 & Ht0 & _); [lia | lia |].
    rewrite (ot_ok _ _ Ht0) in Hot. injection Hot as Ht. subst t.
    apply (ordered_table_ord (bucket_list es b) n t0); [lia | lia | exact Ht0]. }
  assert (Hptr : as_u32 (MAIN_TABLE_SIZE_BYTES + Z.of_nat (length (records pre)))
                 = MAIN_TABLE_SIZE_BYTES + Z.of_nat (length (records pre))).
  { unfold as_u32. apply Z.mod_small. unfold cdb_size, MAIN_TABLE_SIZE_BYTES, MAIN_TABLE_SIZE, u32_modulus in *. lia. }
  assert (Hocc : occupied e = true).
  { unfold occupied, e. cbn [ie_ptr]. rewrite Hptr. apply negb_true_iff, Z.eqb_neq.
    unfold MAIN_TABLE_SIZE_BYTES. lia. }
  destruct (Hord A e B HblB Hocc) as (d & Hd & Hat & Hbefore).
  change (start_of n e) with (Z.shiftr (cdb_hash k) 8 mod n) in Hat, Hbefore.
  pose proof (ti_length _ _ _ Hinv) as Hlt.
  assert (Hn : 0 < n) by (unfold n; lia).
  apply (get_loop_found (layout kvs) k buf (cdb_hash k) (mkBucket (table_pos kvs b) n)
           (Z.shiftr (cdb_hash k) 8 mod n) t) with (d := d); cbn [b_num_ents b_ptr];
    try exact Hlt; try exact Hn; try exact Hent; try exact Hd; try (now apply mod_range);
    try (unfold n, u32_modulus in *; lia).
  - unfold probe. cbn [b_num_ents]. exact (eq_ind_r (fun x => occupied x = true) Hocc Hat).
  - unfold probe. cbn [b_num_ents]. now rewrite Hat.
  - unfold probe. cbn [b_num_ents]. rewrite Hat. exists (mkKVRef k v).
    split; [|split; [apply list_Z_eqb_spec; reflexivity | reflexivity]].
    apply (get_kv_ref_layout kvs pre k v post (cdb_hash k) Hs Hsplit).
  - intros d' Hd'. unfold probe. cbn [b_num_ents].
    destruct (Hbefore d' Hd') as [Ho HA]. split; [exact Ho|]. right.
    set (x := slot_at t ((Z.shiftr (cdb_hash k) 8 mod n + d') mod n)) in *.
    destruct HA as [Hx | HA]; [rewrite <- Hx in Ho; discriminate|].
    apply filter_In in HA as [HA _].
    destruct (in_entries_from _ _ _ HA) as (pre1 & k' & v' & post1 & Hpre1 & Hx).
    assert (Hkvs : kvs = pre1 ++ (k', v') :: (post1 ++ (k, v) :: post))
      by (rewrite Hsplit, Hpre1, <- app_assoc; reflexivity).
    exists (mkKVRef k' v'). split.
    + rewrite Hx. exact (get_kv_ref_layout kvs pre1 k' v' _ (cdb_hash k') Hs Hkvs).
    + left. cbn [kv_k]. destruct (list_Z_eqb k' k) eqn:Heq; [|reflexivity].
      apply list_Z_eqb_spec in Heq. subst k'. exfalso. apply Hfirst.
      rewrite Hpre1, map_app. apply in_or_app. right. now left.
Qed.

Lemma get_first_put_witness :
  get (layout dup_kvs) [97] [0] = Ok (found_result [0] [120]).
Proof.
  apply (get_first_put dup_kvs [] [([97], [121])] [97] [120] [0]).
  - vm_compute. reflexivity.
  - repeat constructor; unfold is_byte; lia.
  - reflexivity.
  - simpl. tauto.
Defined.

(** X18: two byte strings that differ only in their last byte never share
    a hash: the last step of [CDBHash::new] XORs the byte into the hash. *)
Theorem hash_last_byte_injective (p : list Z) (b1 b2 : Z) :
  cdb_hash (p ++ [b1]) = cdb_hash (p ++ [b2]) -> b1 = b2.
Proof.
  unfold cdb_hash. rewrite !fold_left_app. cbn [fold_left]. unfold hash_step.
  set (h := wrapping_add _ _). intros H.
  rewrite <- (Z.lxor_0_l b1), <- (Z.lxor_nilpotent h), Z.lxor_assoc, H.
  rewrite <- Z.lxor_assoc, Z.lxor_nilpotent, Z.lxor_0_l. reflexivity.
Qed.

Lemma hash_last_byte_injective_witness : 97 = 97.
Proof. apply (hash_last_byte_injective (str "pin") 97 97). reflexivity. Defined.
